(** * fix_deepwiki_links: a shallow embedding of [scripts/fix_deepwiki_links.py]

    The script rewrites the targets of markdown links that stand inside a
    [<details>] block of every page under [docs/deepwiki/].  This file
    embeds the script (its text primitives, its regular expression, its
    per-line loop and its file loop) and proves the properties the
    specification states about it. *)

From Stdlib Require Import Ascii String.
From stdpp Require Import base decidable option list numbers gmap sorting.

#[local] Set Warnings "-clear-no-such-hyp".
Local Open Scope N_scope.

(** ** Python text: a [str] is a sequence of Unicode code points *)

Module Py.

Abbreviation char := N (only parsing).
Abbreviation str := (list N) (only parsing).

(** An ASCII literal read as a [str]. *)
Definition lit (s : string) : str := N_of_ascii <$> list_ascii_of_string s.

(** One ASCII character as a code point. *)
Definition chr (a : ascii) : char := N_of_ascii a.

Definition LF : char := 10.
Definition CR : char := 13.

(** [str.isspace] on one code point; it is also what [\s] means in a
    [str] pattern of the [re] module. *)
Definition isspace (c : char) : bool :=
  ((9 <=? c) && (c <=? 13)) || ((28 <=? c) && (c <=? 32))
  || (c =? 133) || (c =? 160) || (c =? 5760)
  || ((8192 <=? c) && (c <=? 8202))
  || (c =? 8232) || (c =? 8233) || (c =? 8239) || (c =? 8287) || (c =? 12288).

(** The line boundaries of [str.splitlines]. *)
Definition islinebreak (c : char) : bool :=
  ((10 <=? c) && (c <=? 13)) || ((28 <=? c) && (c <=? 30))
  || (c =? 133) || (c =? 8232) || (c =? 8233).

(** [str.lstrip()], [str.rstrip()] and [str.strip()] without argument. *)
Fixpoint lstrip (s : str) : str :=
  match s with
  | c :: s' => if isspace c then lstrip s' else s
  | [] => []
  end.

Definition rstrip (s : str) : str := reverse (lstrip (reverse s)).

Definition strip (s : str) : str := rstrip (lstrip s).

(** [s.startswith(prefix)]. *)
Fixpoint startswith (s prefix : str) : bool :=
  match prefix, s with
  | [], _ => true
  | p :: prefix', c :: s' => (c =? p) && startswith s' prefix'
  | _ :: _, [] => false
  end.

(** [s.startswith(prefixes)] for a tuple of prefixes. *)
Definition startswith_any (s : str) (prefixes : list str) : bool :=
  existsb (startswith s) prefixes.

(** [s.endswith(suffix)]. *)
Definition endswith (s suffix : str) : bool :=
  startswith (reverse s) (reverse suffix).

(** [str.splitlines(keepends=True)]: the scan of CPython, with the line
    that is being read kept in [cur].  A carriage return directly followed
    by a line feed is one boundary. *)
Fixpoint splitlines_from (cur : str) (s : str) : list str :=
  match s with
  | [] => match cur with [] => [] | _ :: _ => [cur] end
  | c :: s' =>
      if islinebreak c then
        match s' with
        | d :: s'' =>
            if (c =? CR) && (d =? LF)
            then (cur ++ [c; d]) :: splitlines_from [] s''
            else (cur ++ [c]) :: splitlines_from [] s'
        | [] => [cur ++ [c]]
        end
      else splitlines_from (cur ++ [c]) s'
  end.

Definition splitlines (s : str) : list str := splitlines_from [] s.

(** ["".join(parts)]. *)
Definition join (parts : list str) : str := concat parts.

End Py.

(** ** The fragment of [re] that the script's pattern uses *)

Module Re.
Import Py.

(** A set of characters: [\s], or [[^c]]. *)
Inductive charset :=
  | Space
  | NotChar (c : char).

Definition in_charset (cs : charset) (c : char) : bool :=
  match cs with
  | Space => isspace c
  | NotChar x => negb (c =? x)
  end.

(** What a group is made of: a literal character, or a greedy repetition
    of a set ([*] from zero, [+] from one). *)
Inductive item :=
  | Lit (c : char)
  | Star (cs : charset)
  | Plus (cs : charset).

(** A pattern is a sequence of anchors and capturing groups. *)
Inductive node :=
  | Bol
  | Eol
  | Group (body : list item).

Section matcher.
Context {R : Type}.

(** Greedy repetition with backtracking: take as many characters of the
    set as there are, and give one back at a time while the rest of the
    pattern (the continuation [k]) fails.  [k] receives the text the
    repetition matched and what is left of the subject. *)
Fixpoint repeat_greedy (cs : charset) (least : nat) (s : str)
    (k : str → str → option R) : option R :=
  match s with
  | c :: s' =>
      if in_charset cs c then
        match repeat_greedy cs (pred least) s' (λ m rest, k (c :: m) rest) with
        | Some r => Some r
        | None => match least with O => k [] s | S _ => None end
        end
      else match least with O => k [] s | S _ => None end
  | [] => match least with O => k [] [] | S _ => None end
  end.

Fixpoint match_items (body : list item) (s : str)
    (k : str → str → option R) : option R :=
  match body with
  | [] => k [] s
  | Lit c :: body' =>
      match s with
      | x :: s' =>
          if x =? c then match_items body' s' (λ m rest, k (x :: m) rest)
          else None
      | [] => None
      end
  | Star cs :: body' =>
      repeat_greedy cs 0 s (λ m1 rest1,
        match_items body' rest1 (λ m2 rest2, k (m1 ++ m2) rest2))
  | Plus cs :: body' =>
      repeat_greedy cs 1 s (λ m1 rest1,
        match_items body' rest1 (λ m2 rest2, k (m1 ++ m2) rest2))
  end.
End matcher.

(** [$] without [re.MULTILINE]: the end of the subject, or just before a
    line feed that ends it. *)
Definition at_end (rest : str) : bool :=
  match rest with
  | [] => true
  | [c] => c =? LF
  | _ => false
  end.

(** The nodes of a pattern in turn; [pos] is the number of characters
    consumed so far and [groups] the captures so far. *)
Fixpoint match_nodes (ns : list node) (pos : nat) (s : str)
    (groups : list str) : option (list str) :=
  match ns with
  | [] => Some groups
  | Bol :: ns' =>
      match pos with
      | O => match_nodes ns' pos s groups
      | S _ => None
      end
  | Eol :: ns' => if at_end s then match_nodes ns' pos s groups else None
  | Group body :: ns' =>
      match_items body s (λ m rest,
        match_nodes ns' (pos + length m)%nat rest (groups ++ [m]))
  end.

(** [pattern.match(s)], then [.groups()] of the match object. *)
Definition match_groups (pattern : list node) (s : str) : option (list str) :=
  match_nodes pattern 0%nat s [].

(** Where a repetition of [cs] cannot go on: at the end, or before a
    character that is not in the set. *)
Definition stops_at (cs : charset) (rest : str) : Prop :=
  match rest with
  | [] => True
  | c :: _ => in_charset cs c = false
  end.

(** What a group body matches, without the order of the attempts. *)
Inductive items_match : list item → str → Prop :=
  | items_match_nil : items_match [] []
  | items_match_lit c body m :
      items_match body m → items_match (Lit c :: body) (c :: m)
  | items_match_star cs body m1 m2 :
      Forall (λ c, in_charset cs c = true) m1 →
      items_match body m2 → items_match (Star cs :: body) (m1 ++ m2)
  | items_match_plus cs body m1 m2 :
      m1 ≠ [] → Forall (λ c, in_charset cs c = true) m1 →
      items_match body m2 → items_match (Plus cs :: body) (m1 ++ m2).

End Re.

(** ** The script *)

Import Py Re.

(** The pattern that [re.compile] is given: a start anchor, three groups
    and an end anchor.  Group 1 is white space, a dash, white space, an
    opening bracket, one or more characters other than a closing bracket,
    a closing bracket and an opening parenthesis; group 2 is one or more
    characters other than a closing parenthesis; group 3 is a closing
    parenthesis and white space. *)
Definition link_re : list node :=
  [ Bol;
    Group [ Star Space; Lit (chr "-"); Star Space; Lit (chr "[");
            Plus (NotChar (chr "]")); Lit (chr "]"); Lit (chr "(") ];
    Group [ Plus (NotChar (chr ")")) ];
    Group [ Lit (chr ")"); Star Space ];
    Eol ].

Definition open_marker : str := lit "<details>".
Definition close_marker : str := lit "</details>".
Definition legacy_target : str := lit "doc/download-flow.md".
Definition notes_target : str := lit "../notes/download_flow.md".
Definition passthrough_prefixes : list str :=
  [lit "http://"; lit "https://"; lit "#"; lit "../"; lit "./"].
Definition root_prefix : str := lit "../../".

(** The [if]/[elif]/[else] that computes [new_target] from [target]. *)
Definition rewrite_target (target : str) : str :=
  if bool_decide (target = legacy_target) then notes_target
  else if startswith_any target passthrough_prefixes then target
  else root_prefix ++ target.

(** The variables of the loop over the lines of one document. *)
Record scan := Scan {
  in_details : bool;
  changed : bool;
  out : list str
}.

(** [out.append(line)], the flags as they are. *)
Definition emit (st : scan) (line : str) : scan :=
  Scan (in_details st) (changed st) (out st ++ [line]).

(** The body of [for line in lines].  [link_re] has three groups, so a
    match always unpacks into [prefix], [target] and [suffix]
    ([link_re_spec] below); the last branch of the inner [match] is the
    line that [link_re] does not match. *)
Definition process_line (st : scan) (line : str) : scan :=
  if bool_decide (strip line = open_marker) then
    Scan true (changed st) (out st ++ [line])
  else if bool_decide (strip line = close_marker) then
    Scan false (changed st) (out st ++ [line])
  else if in_details st then
    match match_groups link_re line with
    | Some [prefix; target; suffix] =>
        let new_target := rewrite_target target in
        if bool_decide (new_target ≠ target) then
          Scan (in_details st) true (out st ++ [prefix ++ new_target ++ suffix])
        else emit st line
    | _ => emit st line
    end
  else emit st line.

(** The state before the first line: both flags off, nothing emitted. *)
Definition scan_start : scan := Scan false false [].

Definition process_lines (lines : list str) : scan :=
  foldl process_line scan_start lines.

(** One document, from the text that was read to the lines to write and
    the flag that says whether to write them. *)
Definition transform (text : str) : scan := process_lines (splitlines text).

(** ** The files *)

Module IO.

(** What a name in [docs/deepwiki/] stands for: a file whose bytes decode
    to [stored], or something that [read_text] raises on (a directory, a
    file that is not UTF-8, a file that may not be read). *)
Inductive entry :=
  | File (stored : str)
  | Unreadable.

Record world := World {
  deepwiki_is_dir : bool;
  deepwiki : gmap (list N) entry
}.

Inductive event :=
  | ReadText (name : str)
  | WriteText (name : str) (data : str).

Inductive outcome :=
  | Done
  | SystemExit (message : str)
  | Raised (name : str).

Record run := Run {
  result : outcome;
  after : world;
  trace : list event
}.

(** Text mode on reading ([newline=None]): a carriage return, alone or
    followed by a line feed, is read as a line feed. *)
Fixpoint universal_newlines (s : str) : str :=
  match s with
  | [] => []
  | c :: s' =>
      if c =? CR then
        LF :: match s' with
              | d :: s'' =>
                  if d =? LF then universal_newlines s''
                  else universal_newlines s'
              | [] => []
              end
      else c :: universal_newlines s'
  end.

(** [path.read_text(encoding=...)]; [None] when it raises. *)
Definition read_text (w : world) (name : str) : option str :=
  match deepwiki w !! name with
  | Some (File stored) => Some (universal_newlines stored)
  | _ => None
  end.

(** [path.write_text(data, encoding=...)], where [os.linesep] is a line
    feed: the characters are stored as they are. *)
Definition write_text (w : world) (name : str) (data : str) : world :=
  World (deepwiki_is_dir w) (<[name := File data]> (deepwiki w)).

(** The order of [sorted] on paths of one directory: that of their names,
    code point by code point. *)
Fixpoint name_leb (a b : str) : bool :=
  match a, b with
  | [], _ => true
  | _ :: _, [] => false
  | x :: a', y :: b' =>
      if x <? y then true else if y <? x then false else name_leb a' b'
  end.

Definition name_le (a b : str) : Prop := name_leb a b.

#[global] Instance name_le_dec a b : Decision (name_le a b) :=
  Is_true_dec (name_leb a b).

(** [sorted(deepwiki_dir.glob(...))] for the pattern of the script: the
    names of the directory that end in [.md]. *)
Definition sorted_glob_md (w : world) : list str :=
  merge_sort name_le
    (filter (λ name, endswith name (lit ".md") = true)
            (elements (dom (deepwiki w)))).

End IO.

Import IO.

Definition missing_dir_message : str :=
  lit "Expected 'docs/deepwiki/' to exist. Run deepwiki-export and move the output to docs/deepwiki first.".

Definition readme_name : str := lit "README.md".

(** The body of [for path in sorted(...)], and the loop: [w] is the state
    of the files and [tr] what was read and written so far. *)
Fixpoint process_paths (paths : list str) (w : world) (tr : list event) : run :=
  match paths with
  | [] => Run Done w tr
  | path :: paths' =>
      if bool_decide (path = readme_name) then process_paths paths' w tr
      else
        match read_text w path with
        | None => Run (Raised path) w (tr ++ [ReadText path])
        | Some text =>
            let st := transform text in
            if changed st then
              let data := join (out st) in
              process_paths paths' (write_text w path data)
                (tr ++ [ReadText path; WriteText path data])
            else process_paths paths' w (tr ++ [ReadText path])
        end
  end.

Definition main (w : world) : run :=
  if negb (deepwiki_is_dir w) then Run (SystemExit missing_dir_message) w []
  else process_paths (sorted_glob_md w) w [].

(** The exit status of the interpreter: zero when [main] returns, one for
    [SystemExit] with a message and for an exception nobody caught. *)
Definition exit_status (r : outcome) : Z :=
  match r with
  | Done => 0
  | SystemExit _ => 1
  | Raised _ => 1
  end.

(** ** Notions the proofs go through *)

(** The shape of a line that [link_re] matches, and its three groups. *)
Definition link_shape (line prefix target suffix : str) : Prop :=
  ∃ ws1 ws2 text ws3,
    prefix = ws1 ++ chr "-" :: ws2 ++ chr "[" :: text ++ [chr "]"; chr "("]
    ∧ suffix = chr ")" :: ws3
    ∧ line = prefix ++ target ++ suffix
    ∧ Forall (λ c, isspace c = true) ws1
    ∧ Forall (λ c, isspace c = true) ws2
    ∧ Forall (λ c, isspace c = true) ws3
    ∧ text ≠ [] ∧ Forall (λ c, c ≠ chr "]") text
    ∧ target ≠ [] ∧ Forall (λ c, c ≠ chr ")") target.

(** The cases of one step, from a state with nothing emitted yet. *)
Inductive line_case (ind : bool) (line : str) : scan → Prop :=
  | line_case_open :
      strip line = open_marker →
      line_case ind line (Scan true false [line])
  | line_case_close :
      strip line ≠ open_marker → strip line = close_marker →
      line_case ind line (Scan false false [line])
  | line_case_rewrite prefix target suffix :
      ind = true → link_shape line prefix target suffix →
      rewrite_target target ≠ target →
      line_case ind line
        (Scan true true [prefix ++ rewrite_target target ++ suffix])
  | line_case_keep :
      strip line ≠ open_marker → strip line ≠ close_marker →
      (ind = false ∨ match_groups link_re line = None
       ∨ ∃ prefix target suffix,
           link_shape line prefix target suffix
           ∧ rewrite_target target = target) →
      line_case ind line (Scan ind false [line]).

(** What [splitlines] returns: lines made of a body without boundary and
    of one boundary; the last one may have no boundary; a line that ends
    in a lone carriage return is not followed by a line feed. *)
Inductive lines_ok : list str → Prop :=
  | lines_ok_nil : lines_ok []
  | lines_ok_last body :
      body ≠ [] → Forall (λ c, islinebreak c = false) body → lines_ok [body]
  | lines_ok_break body c rest :
      Forall (λ c, islinebreak c = false) body → islinebreak c = true →
      (c = CR → head (join rest) ≠ Some LF) →
      lines_ok rest → lines_ok ((body ++ [c]) :: rest)
  | lines_ok_crlf body rest :
      Forall (λ c, islinebreak c = false) body →
      lines_ok rest → lines_ok ((body ++ [CR; LF]) :: rest).

(** [line'] is [line], or [line] with another text between a non-empty
    front and a closing parenthesis, without boundary if the text it
    stands for had none. *)
Definition same_frame (line line' : str) : Prop :=
  line' = line ∨
  ∃ front mid mid' back,
    line = front ++ mid ++ chr ")" :: back
    ∧ line' = front ++ mid' ++ chr ")" :: back
    ∧ front ≠ []
    ∧ (Forall (λ c, islinebreak c = false) mid →
       Forall (λ c, islinebreak c = false) mid').

(** ** Notions the properties are stated with *)

(** The variables of the loop when line [i] of the document is reached. *)
Definition state_at (lines : list str) (i : nat) : scan :=
  process_lines (take i lines).

(** Whether line [i] is reached with [in_details] set. *)
Definition inside (lines : list str) (i : nat) : bool :=
  in_details (state_at lines i).

(** The marker a line is: [Some true] for an opening one, [Some false] for
    a closing one. *)
Definition marker (line : str) : option bool :=
  if bool_decide (strip line = open_marker) then Some true
  else if bool_decide (strip line = close_marker) then Some false
  else None.

(** The last marker among [lines]. *)
Definition last_marker (lines : list str) : option bool :=
  last (omap marker lines).

(** Some line of the document is reached inside the region, has the link
    shape, and the rule gives its target another value. *)
Definition target_changed (lines : list str) : Prop :=
  ∃ i line prefix target suffix,
    lines !! i = Some line ∧ inside lines i = true
    ∧ match_groups link_re line = Some [prefix; target; suffix]
    ∧ rewrite_target target ≠ target.

(** What the run writes to [name] when it comes to it: nothing for the
    skipped name, for a file it cannot read and for a document that is
    not changed. *)
Definition written (w : world) (name : str) : option str :=
  if bool_decide (name = readme_name) then None
  else
    match read_text w name with
    | Some text =>
        if changed (transform text) then Some (join (out (transform text)))
        else None
    | None => None
    end.

(** The reads and writes of the run when it comes to [name]. *)
Definition file_events (w : world) (name : str) : list event :=
  if bool_decide (name = readme_name) then []
  else
    ReadText name ::
      match written w name with
      | Some data => [WriteText name data]
      | None => []
      end.

(** The names the loop comes to: all of them, up to the first one that
    cannot be read. *)
Fixpoint reached (w : world) (names : list str) : list str :=
  match names with
  | [] => []
  | name :: names' =>
      if bool_decide (name = readme_name) then name :: reached w names'
      else
        match read_text w name with
        | Some _ => name :: reached w names'
        | None => [name]
        end
  end.

(** The state of a file after the run. *)
Definition file_after (w : world) (names : list str) (name : str) : option entry :=
  match (if bool_decide (name ∈ reached w names) then written w name else None) with
  | Some data => Some (File data)
  | None => deepwiki w !! name
  end.

(** ** Inputs to try the properties on *)

(** A line that ends in a line feed. *)
Definition line_of (s : string) : str := lit s ++ [LF].

Definition demo_lines : list str :=
  [ line_of "# Page";
    line_of "- [out](outside.md)";
    line_of "<details>";
    line_of "- [r](README.md)";
    line_of "- [d](doc/download-flow.md)";
    line_of "- [h](https://example.com/x)";
    line_of "  - [s](ios/Classes/Foo.swift)  ";
    line_of "- [a](#section)";
    line_of "- [o](../other.md)";
    line_of "- [b](./sibling.md)";
    line_of "</details>";
    line_of "- [y](b.md)" ].

Definition demo_page : str := join demo_lines.

(** Two lines that end in a carriage return and a line feed. *)
Definition demo_crlf_lines : list str :=
  [ lit "<details>" ++ [CR; LF];
    lit "- [r](README.md)" ++ [CR; LF] ].

(** A page where nothing is to be changed. *)
Definition quiet_page : str :=
  join [ line_of "- [r](README.md)";
         line_of "<details>";
         line_of "- [h](https://example.com/x)";
         line_of "</details>" ].

Definition demo_world : world :=
  World true (list_to_map
    [ (lit "README.md", File demo_page);
      (lit "b.md", File demo_page);
      (lit "a.md", File quiet_page);
      (lit "notes.txt", File demo_page) ]).

(** ** Notions for the run as a whole *)

(** The name at which the loop stops: the first one that is not skipped
    and cannot be read. *)
Fixpoint blocked (w : world) (names : list str) : option str :=
  match names with
  | [] => None
  | name :: names' =>
      if bool_decide (name = readme_name) then blocked w names'
      else
        match read_text w name with
        | Some _ => blocked w names'
        | None => Some name
        end
  end.

(** The names that a trace reads, in the order of the reads. *)
Definition reads (tr : list event) : list str :=
  omap (λ ev, match ev with ReadText name => Some name | WriteText _ _ => None end) tr.

(** Lines inside a region that [link_re] does not match. *)
Definition odd_lines : list str :=
  [ line_of "<details>";
    line_of "- [a](b.md) and [c](d.md)";
    line_of "- [a](b.md) trailing";
    line_of "* [a](b.md)";
    line_of "- [](b.md)" ].

(** Links and closing markers, and no opening marker. *)
Definition unopened_lines : list str :=
  [ line_of "- [r](README.md)";
    line_of "</details>";
    line_of "- [d](doc/download-flow.md)" ].

(** A directory with an entry that cannot be read between two pages. *)
Definition broken_world : world :=
  World true (list_to_map
    [ (lit "c.md", File demo_page);
      (lit "b.md", Unreadable);
      (lit "a.md", File demo_page) ]).

(** * Proofs *)

(** Lists of characters with every [++] to the right. *)
Ltac list_norm := repeat (rewrite <-?(assoc_L (++)), ?app_nil_r; cbn [app]).

Example demo_page_lines : splitlines demo_page = demo_lines.
Proof. by vm_compute. Qed.

Example demo_page_transform :
  changed (transform demo_page) = true
  ∧ out (transform demo_page) =
      [ line_of "# Page";
        line_of "- [out](outside.md)";
        line_of "<details>";
        line_of "- [r](../../README.md)";
        line_of "- [d](../notes/download_flow.md)";
        line_of "- [h](https://example.com/x)";
        line_of "  - [s](../../ios/Classes/Foo.swift)  ";
        line_of "- [a](#section)";
        line_of "- [o](../other.md)";
        line_of "- [b](./sibling.md)";
        line_of "</details>";
        line_of "- [y](b.md)" ].
Proof. by vm_compute. Qed.

Example splitlines_examples :
  splitlines (lit "a" ++ [CR; LF] ++ lit "b" ++ [CR] ++ lit "c" ++ [LF; CR] ++ lit "d")
    = [lit "a" ++ [CR; LF]; lit "b" ++ [CR]; lit "c" ++ [LF]; [CR]; lit "d"]
  ∧ splitlines [] = []
  ∧ splitlines [CR; LF; LF; CR] = [[CR; LF]; [LF]; [CR]].
Proof. by vm_compute. Qed.

Example link_re_examples :
  match_groups link_re (lit "- [a](b)" ++ [CR; LF])
    = Some [lit "- [a]("; lit "b"; lit ")" ++ [CR; LF]]
  ∧ match_groups link_re (lit "-[a](b)") = Some [lit "-[a]("; lit "b"; lit ")"]
  ∧ match_groups link_re (line_of "- [a](b) x") = None
  ∧ match_groups link_re (line_of "- [](b)") = None
  ∧ match_groups link_re (line_of "- [a]()") = None
  ∧ match_groups link_re (line_of "- [a](b)(c)") = None
  ∧ match_groups link_re (line_of "x- [a](b)") = None.
Proof. by vm_compute. Qed.

(** ** Facts about the text primitives *)

Lemma islinebreak_isspace c : islinebreak c = true → isspace c = true.
Proof.
  unfold islinebreak, isspace.
  rewrite !orb_true_iff, !andb_true_iff, !N.leb_le, !N.eqb_eq. lia.
Qed.

(** ** Facts about the matcher *)

Section matcher_facts.
Context {R : Type}.
Implicit Types (k : str → str → option R) (cs : charset).

Lemma repeat_greedy_sound cs least s k r :
  repeat_greedy cs least s k = Some r →
  ∃ m rest, s = m ++ rest ∧ Forall (λ c, in_charset cs c = true) m
            ∧ (least ≤ length m)%nat ∧ k m rest = Some r.
Proof.
  revert least k. induction s as [|c s IH]; intros least k; simpl.
  - destruct least; [|done]. intros Hk. exists [], []. simpl. auto with lia.
  - assert (Hgive : match least with O => k [] (c :: s) | S _ => None end = Some r →
      ∃ m rest, c :: s = m ++ rest ∧ Forall (λ c, in_charset cs c = true) m
                ∧ (least ≤ length m)%nat ∧ k m rest = Some r).
    { destruct least; [|done]. intros Hk. exists [], (c :: s). simpl. auto with lia. }
    destruct (in_charset cs c) eqn:Hc; [|done].
    destruct (repeat_greedy cs (pred least) s _) as [r'|] eqn:Hrec; [|done].
    intros [= ->]. apply IH in Hrec as (m & rest & -> & Hm & Hl & Hk).
    exists (c :: m), rest. simpl. split_and!; auto with lia.
Qed.

Lemma repeat_greedy_max cs least m rest k r :
  Forall (λ c, in_charset cs c = true) m → stops_at cs rest →
  (least ≤ length m)%nat → k m rest = Some r →
  repeat_greedy cs least (m ++ rest) k = Some r.
Proof.
  intros Hm. revert least k. induction Hm as [|c m Hc Hm IH]; intros least k Hstop Hl Hk.
  - simpl in *. assert (least = 0%nat) as -> by lia.
    destruct rest as [|c rest]; simpl in *; [done|]. by rewrite Hstop.
  - simpl in *. rewrite Hc.
    rewrite (IH (pred least) (λ m rest, k (c :: m) rest)); auto with lia.
Qed.
End matcher_facts.

Lemma match_items_sound {R} body s (k : str → str → option R) r :
  match_items body s k = Some r →
  ∃ m rest, s = m ++ rest ∧ items_match body m ∧ k m rest = Some r.
Proof.
  revert s k. induction body as [|[c|cs|cs] body IH]; intros s k; simpl.
  - intros Hk. exists [], s. split_and!; [done|constructor|done].
  - destruct s as [|x s]; [done|]. destruct (N.eqb_spec x c) as [->|]; [|done].
    intros (m & rest & -> & Hm & Hk)%IH.
    exists (c :: m), rest. split_and!; [done|by constructor|done].
  - intros (m1 & rest1 & -> & Hm1 & _ & (m2 & rest & -> & Hm2 & Hk)%IH)%repeat_greedy_sound.
    exists (m1 ++ m2), rest. split_and!; [by rewrite (assoc_L (++))|by constructor|done].
  - intros (m1 & rest1 & -> & Hm1 & Hl & (m2 & rest & -> & Hm2 & Hk)%IH)%repeat_greedy_sound.
    exists (m1 ++ m2), rest. split_and!; [by rewrite (assoc_L (++))| |done].
    constructor; [|done..]. intros ->. simpl in Hl. lia.
Qed.

Lemma at_end_inv rest : at_end rest = true → rest = [] ∨ rest = [LF].
Proof.
  destruct rest as [|c [|d rest]]; simpl; [auto| |done].
  intros ->%N.eqb_eq. auto.
Qed.

Lemma not_in_charset_iff c x : in_charset (NotChar x) c = true ↔ c ≠ x.
Proof. simpl. rewrite negb_true_iff, N.eqb_neq. done. Qed.

(** A shaped line is matched, and the groups are those of the shape: every
    repetition of the pattern stops where the next literal begins. *)
Lemma link_re_complete line prefix target suffix :
  link_shape line prefix target suffix →
  match_groups link_re line = Some [prefix; target; suffix].
Proof.
  intros (ws1 & ws2 & text & ws3 & -> & -> & -> & H1 & H2 & H3 & Ht & Htext & Hn & Htarget).
  unfold match_groups, link_re. cbn [match_nodes match_items].
  list_norm.
  apply repeat_greedy_max; [done|done|lia|].
  cbn [app match_items]. rewrite N.eqb_refl.
  apply repeat_greedy_max; [done|done|lia|].
  cbn [app match_items]. rewrite N.eqb_refl.
  apply repeat_greedy_max.
  { eapply Forall_impl; [done|]. intros c. by rewrite not_in_charset_iff. }
  { done. }
  { destruct text; simpl; [done|lia]. }
  cbn [app match_items]. rewrite !N.eqb_refl.
  cbn [match_nodes match_items].
  apply repeat_greedy_max.
  { eapply Forall_impl; [done|]. intros c. by rewrite not_in_charset_iff. }
  { done. }
  { destruct target; simpl; [done|lia]. }
  cbn [app match_items match_nodes]. rewrite N.eqb_refl.
  rewrite <-(app_nil_r ws3) at 1.
  apply repeat_greedy_max; [done|done|lia|].
  cbn [match_items match_nodes at_end app]. by list_norm.
Qed.

Lemma items_match_nil_inv m : items_match [] m → m = [].
Proof. by inversion 1. Qed.

Lemma items_match_lit_inv c body m :
  items_match (Lit c :: body) m → ∃ m', m = c :: m' ∧ items_match body m'.
Proof. inversion 1; subst. eauto. Qed.

Lemma items_match_star_inv cs body m :
  items_match (Star cs :: body) m →
  ∃ m1 m2, m = m1 ++ m2 ∧ Forall (λ c, in_charset cs c = true) m1
           ∧ items_match body m2.
Proof. inversion 1; subst. eauto. Qed.

Lemma items_match_plus_inv cs body m :
  items_match (Plus cs :: body) m →
  ∃ m1 m2, m = m1 ++ m2 ∧ m1 ≠ [] ∧ Forall (λ c, in_charset cs c = true) m1
           ∧ items_match body m2.
Proof. inversion 1; subst. eauto 10. Qed.

Lemma Forall_not_in_charset x (m : str) :
  Forall (λ c, in_charset (NotChar x) c = true) m → Forall (λ c, c ≠ x) m.
Proof.
  intros H. eapply Forall_impl; [done|]. intros c. by rewrite not_in_charset_iff.
Qed.

Lemma link_re_sound line groups :
  match_groups link_re line = Some groups →
  ∃ prefix target suffix, link_shape line prefix target suffix.
Proof.
  unfold match_groups, link_re. cbn [match_nodes].
  intros (p & r1 & -> & Hp & (t & r2 & -> & Ht & (s & rest & -> & Hs & Hk)%match_items_sound)%match_items_sound)%match_items_sound.
  cbn [match_nodes] in Hk. destruct (at_end rest) eqn:Hend; [|done]. clear Hk.
  apply items_match_star_inv in Hp as (ws1 & p1 & -> & Hws1 & Hp).
  apply items_match_lit_inv in Hp as (p2 & -> & Hp).
  apply items_match_star_inv in Hp as (ws2 & p3 & -> & Hws2 & Hp).
  apply items_match_lit_inv in Hp as (p4 & -> & Hp).
  apply items_match_plus_inv in Hp as (text & p5 & -> & Hne & Htext & Hp).
  apply items_match_lit_inv in Hp as (p6 & -> & Hp).
  apply items_match_lit_inv in Hp as (p7 & -> & ->%items_match_nil_inv).
  apply items_match_plus_inv in Ht as (t1 & t2 & -> & Hnt & Ht1 & ->%items_match_nil_inv).
  apply items_match_lit_inv in Hs as (s1 & -> & Hs).
  apply items_match_star_inv in Hs as (ws3 & s2 & -> & Hws3 & ->%items_match_nil_inv).
  exists (ws1 ++ chr "-" :: ws2 ++ chr "[" :: text ++ [chr "]"; chr "("]), t1,
    (chr ")" :: ws3 ++ rest).
  exists ws1, ws2, text, (ws3 ++ rest).
  split_and!; try done.
  - by list_norm.
  - apply Forall_app. split; [done|].
    apply at_end_inv in Hend as [->| ->]; [done|]. by repeat constructor.
  - by apply Forall_not_in_charset.
  - by apply Forall_not_in_charset.
Qed.

(** [link_re] matches exactly the lines of the link shape, and the groups
    are the three parts of the shape. *)
Theorem link_re_spec line groups :
  match_groups link_re line = Some groups ↔
  ∃ prefix target suffix,
    groups = [prefix; target; suffix] ∧ link_shape line prefix target suffix.
Proof.
  split.
  - intros Hm. destruct (link_re_sound _ _ Hm) as (p & t & s & Hshape).
    exists p, t, s. split; [|done].
    apply link_re_complete in Hshape. congruence.
  - intros (p & t & s & -> & Hshape). by apply link_re_complete.
Qed.

(** ** Facts about [strip] and the markers *)

Lemma lstrip_spaces (ws : str) : Forall (λ c, isspace c = true) ws → lstrip ws = [].
Proof. induction 1 as [|c ws Hc _ IH]; simpl; [done|]. by rewrite Hc. Qed.

Lemma lstrip_app_nonspace (xs : str) c ys :
  isspace c = false → lstrip (xs ++ c :: ys) = lstrip xs ++ c :: ys.
Proof.
  intros Hc. induction xs as [|x xs IH]; simpl; [by rewrite Hc|].
  by destruct (isspace x).
Qed.

Lemma strip_head (ws : str) c rest :
  Forall (λ c, isspace c = true) ws → isspace c = false →
  ∃ tl, strip (ws ++ c :: rest) = c :: tl.
Proof.
  intros Hws Hc. unfold strip, rstrip.
  rewrite lstrip_app_nonspace, (lstrip_spaces ws) by done. simpl.
  rewrite reverse_cons, lstrip_app_nonspace by done.
  rewrite reverse_snoc. eauto.
Qed.

(** A line of the link shape is not a marker line. *)
Lemma link_shape_not_marker line prefix target suffix :
  link_shape line prefix target suffix →
  strip line ≠ open_marker ∧ strip line ≠ close_marker.
Proof.
  intros (ws1 & ws2 & text & ws3 & -> & -> & -> & H1 & _).
  list_norm. destruct (strip_head ws1 (chr "-")
    (ws2 ++ chr "[" :: text ++ chr "]" :: chr "(" :: target ++ chr ")" :: ws3) H1 eq_refl)
    as [tl ->].
  split; by vm_compute.
Qed.

(** ** Facts about the rewrite rule *)

Lemma rewrite_target_cases target :
  (target = legacy_target ∧ rewrite_target target = notes_target)
  ∨ (target ≠ legacy_target ∧ startswith_any target passthrough_prefixes = true
     ∧ rewrite_target target = target)
  ∨ (target ≠ legacy_target ∧ startswith_any target passthrough_prefixes = false
     ∧ rewrite_target target = root_prefix ++ target).
Proof.
  unfold rewrite_target. case_bool_decide; [auto|].
  destruct (startswith_any _ _); auto.
Qed.

Lemma rewrite_target_Forall (P : N → Prop) target :
  Forall P notes_target → Forall P root_prefix → Forall P target →
  Forall P (rewrite_target target).
Proof.
  intros Hn Hr Ht.
  destruct (rewrite_target_cases target) as [[_ ->]|[(_ & _ & ->)|(_ & _ & ->)]];
    [done|done|]. by apply Forall_app.
Qed.

Lemma rewrite_target_idempotent target :
  rewrite_target (rewrite_target target) = rewrite_target target.
Proof.
  destruct (rewrite_target_cases target) as [[_ Heq]|[(_ & _ & Heq)|(_ & _ & Heq)]].
  - rewrite Heq. by vm_compute.
  - by rewrite !Heq.
  - rewrite Heq. unfold rewrite_target.
    rewrite bool_decide_eq_false_2 by (by vm_compute). by vm_compute.
Qed.

Lemma rewrite_target_nonempty target : target ≠ [] → rewrite_target target ≠ [].
Proof.
  intros Hne.
  destruct (rewrite_target_cases target) as [[_ ->]|[(_ & _ & ->)|(_ & _ & ->)]];
    [by vm_compute|done|by vm_compute].
Qed.

(** A target that the rule changes starts with [../] afterwards, which is
    one of the passthrough prefixes. *)
Lemma rewritten_target_passthrough target :
  rewrite_target target ≠ target →
  startswith (rewrite_target target) (lit "../") = true
  ∧ startswith_any (rewrite_target target) passthrough_prefixes = true.
Proof.
  destruct (rewrite_target_cases target) as [[_ ->]|[(_ & _ & ->)|(_ & _ & ->)]];
    [by vm_compute|done|by vm_compute].
Qed.

(** ** Facts about the loop over the lines *)

(** What [process_line] does depends on [in_details] and on the line; the
    other two fields are carried along. *)
Lemma process_line_frame st line :
  process_line st line =
    let r := process_line (Scan (in_details st) false []) line in
    Scan (in_details r) (changed st || changed r) (out st ++ out r).
Proof.
  unfold process_line, emit. cbn [in_details changed out].
  repeat case_match; cbn [in_details changed out app];
    f_equal; by rewrite ?orb_false_r, ?orb_true_r.
Qed.

Lemma process_line_out st line :
  ∃ line', out (process_line st line) = out st ++ [line'].
Proof.
  unfold process_line, emit. repeat case_match; cbn [out]; eauto.
Qed.

(** On a marker line. *)
Lemma process_line_open st line :
  strip line = open_marker →
  process_line st line = Scan true (changed st) (out st ++ [line]).
Proof. intros H. unfold process_line. by rewrite bool_decide_eq_true_2. Qed.

Lemma process_line_close st line :
  strip line = close_marker →
  process_line st line = Scan false (changed st) (out st ++ [line]).
Proof.
  intros H. unfold process_line.
  rewrite bool_decide_eq_false_2, bool_decide_eq_true_2; [done..|].
  rewrite H. by vm_compute.
Qed.

(** Outside the region. *)
Lemma process_line_outside st line :
  in_details st = false →
  strip line ≠ open_marker → strip line ≠ close_marker →
  process_line st line = emit st line.
Proof.
  intros Hin Ho Hc. unfold process_line.
  by rewrite !bool_decide_eq_false_2, Hin.
Qed.

(** Inside the region, on a line that [link_re] matches. *)
Lemma process_line_link st line prefix target suffix :
  in_details st = true →
  match_groups link_re line = Some [prefix; target; suffix] →
  process_line st line =
    if bool_decide (rewrite_target target ≠ target)
    then Scan true true (out st ++ [prefix ++ rewrite_target target ++ suffix])
    else emit st line.
Proof.
  intros Hin Hm.
  assert (link_shape line prefix target suffix) as [Ho Hc]%link_shape_not_marker.
  { apply link_re_spec in Hm as (p & t & s & [= -> -> ->] & Hs). done. }
  unfold process_line. rewrite !bool_decide_eq_false_2, Hin, Hm by done.
  done.
Qed.

(** Inside the region, on a line that [link_re] does not match. *)
Lemma process_line_no_link st line :
  match_groups link_re line = None →
  strip line ≠ open_marker → strip line ≠ close_marker →
  process_line st line = emit st line.
Proof.
  intros Hm Ho Hc. unfold process_line.
  rewrite !bool_decide_eq_false_2, Hm by done. by destruct (in_details st).
Qed.

Lemma process_line_case ind line :
  line_case ind line (process_line (Scan ind false []) line).
Proof.
  destruct (decide (strip line = open_marker)) as [Ho|Ho].
  { rewrite process_line_open by done. by constructor. }
  destruct (decide (strip line = close_marker)) as [Hc|Hc].
  { rewrite process_line_close by done. by constructor. }
  destruct ind.
  2:{ rewrite process_line_outside by done. apply line_case_keep; auto. }
  destruct (match_groups link_re line) as [groups|] eqn:Hm.
  2:{ rewrite process_line_no_link by done. apply line_case_keep; auto. }
  pose proof Hm as (p & t & s & -> & Hshape)%link_re_spec.
  rewrite (process_line_link (Scan true false []) _ _ _ _ eq_refl Hm). cbn [out app].
  case_bool_decide as Hne.
  - by econstructor.
  - apply line_case_keep; [done..|]. right; right. exists p, t, s.
    split; [done|]. by destruct (decide (rewrite_target t = t)).
Qed.

(** A rewritten line keeps the link shape; its target is the new one. *)
Lemma link_shape_rewrite line prefix target suffix :
  link_shape line prefix target suffix →
  link_shape (prefix ++ rewrite_target target ++ suffix)
    prefix (rewrite_target target) suffix.
Proof.
  intros (ws1 & ws2 & text & ws3 & -> & -> & -> & H1 & H2 & H3 & Ht & Htext & Hn & Htarget).
  exists ws1, ws2, text, ws3. split_and!; try done.
  - by apply rewrite_target_nonempty.
  - apply rewrite_target_Forall; [by vm_compute; repeat constructor..|done].
Qed.

(** A second step on the line that a step emitted emits it again, moves
    the state the same way and changes nothing. *)
Lemma process_line_again ind line r :
  line_case ind line r →
  ∃ line', out r = [line']
    ∧ process_line (Scan ind false []) line' = Scan (in_details r) false [line'].
Proof.
  destruct 1 as [Ho|Ho Hc|p t s -> Hshape Hne|Ho Hc Hkeep]; eexists; (split; [done|]).
  - by rewrite process_line_open.
  - by rewrite process_line_close.
  - apply link_shape_rewrite, link_re_complete in Hshape.
    rewrite (process_line_link (Scan true false []) _ _ _ _ eq_refl Hshape).
    by rewrite rewrite_target_idempotent, bool_decide_eq_false_2 by naive_solver.
  - destruct ind; [|by rewrite process_line_outside].
    destruct Hkeep as [|[Hm|(p & t & s & Hshape & Heq)]]; [done| |].
    + by rewrite process_line_no_link.
    + apply link_re_complete in Hshape.
      rewrite (process_line_link (Scan true false []) _ _ _ _ eq_refl Hshape).
      by rewrite bool_decide_eq_false_2 by naive_solver.
Qed.

Lemma foldl_process_line_frame st lines :
  foldl process_line st lines =
    let r := foldl process_line (Scan (in_details st) false []) lines in
    Scan (in_details r) (changed st || changed r) (out st ++ out r).
Proof.
  revert st. induction lines as [|line lines IH]; intros st; cbn [foldl].
  { destruct st. cbn. by rewrite orb_false_r, app_nil_r. }
  rewrite IH, (IH (process_line (Scan _ _ _) _)). cbn zeta.
  rewrite (process_line_frame st). cbn [in_details changed out].
  f_equal; [by rewrite ?orb_false_l, ?orb_assoc|by rewrite ?app_nil_l, ?(assoc_L (++))].
Qed.

(** The lines that one pass over [lines] emits, passed over again from the
    same state, are emitted once more as they are. *)
Lemma foldl_process_line_again ind lines :
  let r := foldl process_line (Scan ind false []) lines in
  foldl process_line (Scan ind false []) (out r) = Scan (in_details r) false (out r).
Proof.
  revert ind. induction lines as [|line lines IH]; intros ind; cbn [foldl]; [done|].
  destruct (process_line_again ind line _ (process_line_case ind line))
    as (line' & Hout & Hagain).
  cbn zeta. rewrite (foldl_process_line_frame (process_line _ _)).
  cbn zeta. cbn [in_details changed out].
  rewrite Hout. cbn [app foldl]. rewrite Hagain.
  rewrite foldl_process_line_frame. cbn zeta. cbn [in_details changed out].
  specialize (IH (in_details (process_line (Scan ind false []) line))).
  cbn zeta in IH. by rewrite IH.
Qed.

(** ** Facts about [splitlines] *)

Lemma str_ind2 (P : str → Prop) :
  P [] → (∀ c, P [c]) → (∀ c d s, P s → P (d :: s) → P (c :: d :: s)) →
  ∀ s, P s.
Proof.
  intros H0 H1 H2 s. cut (P s ∧ ∀ c, P (c :: s)); [by intros []|].
  induction s as [|d s [IH1 IH2]]; [by split|]. split; [done|].
  intros c. by apply H2.
Qed.

Lemma splitlines_from_cons cur c s :
  splitlines_from cur (c :: s) =
    if islinebreak c then
      match s with
      | d :: s' =>
          if (c =? CR) && (d =? LF)
          then (cur ++ [c; d]) :: splitlines_from [] s'
          else (cur ++ [c]) :: splitlines_from [] s
      | [] => [cur ++ [c]]
      end
    else splitlines_from (cur ++ [c]) s.
Proof. done. Qed.

Lemma splitlines_from_nonbreak cur (body s : str) :
  Forall (λ c, islinebreak c = false) body →
  splitlines_from cur (body ++ s) = splitlines_from (cur ++ body) s.
Proof.
  intros Hb. revert cur. induction Hb as [|c body Hc _ IH]; intros cur; simpl.
  - by rewrite app_nil_r.
  - rewrite Hc, IH. by rewrite <-(assoc_L (++)).
Qed.

(** Joining the lines gives the text back. *)
Lemma join_splitlines_from s : ∀ cur, join (splitlines_from cur s) = cur ++ s.
Proof.
  unfold join. induction s as [|c|c d s IH1 IH2] using str_ind2; intros cur.
  - simpl. destruct cur; simpl; by rewrite ?app_nil_r.
  - simpl. destruct (islinebreak c); simpl; [by rewrite app_nil_r|].
    destruct (cur ++ [c]) eqn:E; [by destruct cur|]. simpl. by rewrite !app_nil_r.
  - rewrite splitlines_from_cons. cbv beta iota. destruct (islinebreak c).
    + destruct ((c =? CR) && (d =? LF)); cbn [concat].
      * rewrite IH1. by list_norm.
      * rewrite IH2. by list_norm.
    + rewrite IH2. by list_norm.
Qed.

Lemma join_splitlines s : join (splitlines s) = s.
Proof. apply (join_splitlines_from s []). Qed.

Lemma lines_ok_splitlines_from s :
  ∀ cur, Forall (λ c, islinebreak c = false) cur → lines_ok (splitlines_from cur s).
Proof.
  induction s as [|c|c d s IH1 IH2] using str_ind2; intros cur Hcur.
  - simpl. destruct cur eqn:E; [constructor|]. rewrite <-E in *. constructor; [by subst|done].
  - simpl. destruct (islinebreak c) eqn:Hc.
    + apply lines_ok_break; [done|done|done|constructor].
    + assert (Forall (λ c, islinebreak c = false) (cur ++ [c])) as H
        by (apply Forall_app; auto).
      destruct (cur ++ [c]) eqn:E; [by destruct cur|]. rewrite <-E in *.
      constructor; [by rewrite E|done].
  - rewrite splitlines_from_cons. cbv beta iota. destruct (islinebreak c) eqn:Hc.
    + destruct ((c =? CR) && (d =? LF)) eqn:Hcrlf.
      * apply andb_true_iff in Hcrlf as [->%N.eqb_eq ->%N.eqb_eq].
        apply lines_ok_crlf; [done|]. by apply IH1.
      * apply lines_ok_break; [done|done| |by apply IH2].
        intros ->. rewrite join_splitlines_from. simpl. intros [= ->].
        by rewrite !N.eqb_refl in Hcrlf.
    + apply IH2. apply Forall_app; auto.
Qed.

Lemma lines_ok_splitlines s : lines_ok (splitlines s).
Proof. by apply lines_ok_splitlines_from. Qed.

Lemma lines_ok_join_nil lines : lines_ok lines → join lines = [] → lines = [].
Proof.
  unfold join. destruct 1 as [|body Hne _|body c rest|body rest]; simpl; [done|..].
  - rewrite app_nil_r. done.
  - intros [? _]%app_eq_nil. by destruct body.
  - intros [? _]%app_eq_nil. by destruct body.
Qed.

(** Splitting the joined lines gives the lines back. *)
Lemma splitlines_join lines : lines_ok lines → splitlines (join lines) = lines.
Proof.
  unfold splitlines, join.
  induction 1 as [|body Hne Hb|body c rest Hb Hc Hcr Hrest IH|body rest Hb Hrest IH];
    cbn [concat].
  - done.
  - rewrite splitlines_from_nonbreak by done. simpl. by destruct body.
  - rewrite <-(assoc_L (++)), splitlines_from_nonbreak by done. cbn [app].
    rewrite splitlines_from_cons, Hc. destruct (concat rest) as [|d s] eqn:E.
    + apply (lines_ok_join_nil _ Hrest) in E as ->. done.
    + destruct ((c =? CR) && (d =? LF)) eqn:Hcrlf.
      * apply andb_true_iff in Hcrlf as [->%N.eqb_eq ->%N.eqb_eq].
        unfold join in Hcr. rewrite E in Hcr. by destruct Hcr.
      * by rewrite IH.
  - rewrite <-(assoc_L (++)), splitlines_from_nonbreak by done. cbn [app].
    rewrite splitlines_from_cons. replace (islinebreak CR) with true by done.
    rewrite !N.eqb_refl. cbn [andb]. by rewrite IH.
Qed.

(** ** What a rewrite keeps of a line *)

(** A boundary at the end of a line that ends in a closing parenthesis and
    white space lies in that white space. *)
Lemma terminator_in_suffix (front ws body term : str) :
  front ++ chr ")" :: ws = body ++ term →
  Forall (λ c, islinebreak c = true) term →
  ∃ ws0, ws = ws0 ++ term ∧ body = front ++ chr ")" :: ws0.
Proof.
  intros Heq Hterm.
  change (front ++ chr ")" :: ws) with (front ++ [chr ")"] ++ ws) in Heq.
  rewrite (assoc_L (++)) in Heq.
  apply app_eq_inv in Heq as [(k & Hk & ->)|(k & -> & ->)].
  - destruct k as [|z k _] using rev_ind.
    + exists []. rewrite app_nil_r in Hk. by rewrite Hk.
    + rewrite (assoc_L (++)) in Hk. apply app_inj_tail in Hk as [_ <-].
      apply Forall_app in Hterm as [[_ Hz]%Forall_app _].
      rewrite Forall_singleton in Hz. by vm_compute in Hz.
  - exists k. by rewrite <-(assoc_L (++)).
Qed.

Lemma same_frame_head line line' : same_frame line line' → head line' = head line.
Proof.
  intros [->|(front & mid & mid' & back & -> & -> & Hne & _)]; [done|].
  by destruct front.
Qed.

Lemma same_frame_body body term line' :
  same_frame (body ++ term) line' →
  Forall (λ c, islinebreak c = false) body →
  Forall (λ c, islinebreak c = true) term →
  ∃ body', line' = body' ++ term ∧ Forall (λ c, islinebreak c = false) body'
           ∧ (body ≠ [] → body' ≠ []).
Proof.
  intros [->|(front & mid & mid' & back & Heq & -> & Hne & Hmid')] Hbody Hterm.
  { eauto. }
  rewrite (assoc_L (++)) in Heq. symmetry in Heq.
  apply terminator_in_suffix in Heq as (ws0 & -> & ->); [|done].
  exists (front ++ mid' ++ chr ")" :: ws0). split_and!.
  - by list_norm.
  - rewrite <-(assoc_L (++)) in Hbody.
    apply Forall_app in Hbody as [Hf [Hm Hb]%Forall_app].
    repeat (apply Forall_app; split); auto.
  - intros _. by destruct front.
Qed.

Lemma lines_ok_nonempty line lines : lines_ok (line :: lines) → line ≠ [].
Proof. inversion 1; subst; [done|by destruct body..]. Qed.

Lemma same_frame_join_head lines lines' :
  Forall2 same_frame lines lines' → lines_ok lines →
  head (join lines') = head (join lines).
Proof.
  unfold join. intros Hf Hok. destruct Hf as [|l l' ls ls' Hl Hls]; [done|].
  cbn [concat]. rewrite !head_app, (same_frame_head _ _ Hl).
  destruct (head l) eqn:E; [done|]. apply head_None in E as ->.
  by apply lines_ok_nonempty in Hok.
Qed.

Lemma lines_ok_same_frame lines lines' :
  Forall2 same_frame lines lines' → lines_ok lines → lines_ok lines'.
Proof.
  intros Hf Hok. revert lines' Hf.
  induction Hok as [|body Hne Hb|body c rest Hb Hc Hcr Hrest IH|body rest Hb Hrest IH];
    intros lines' Hf.
  - apply Forall2_nil_inv_l in Hf as ->. constructor.
  - apply Forall2_cons_inv_l in Hf as (l' & ls' & Hl & ->%Forall2_nil_inv_l & ->).
    rewrite <-(app_nil_r body) in Hl.
    apply same_frame_body in Hl as (body' & -> & Hb' & Hne'); [|done..].
    rewrite app_nil_r. constructor; auto.
  - apply Forall2_cons_inv_l in Hf as (l' & ls' & Hl & Hls & ->).
    apply same_frame_body in Hl as (body' & -> & Hb' & _); [|done|by repeat constructor].
    apply lines_ok_break; [done|done| |by apply IH].
    rewrite (same_frame_join_head _ _ Hls Hrest). done.
  - apply Forall2_cons_inv_l in Hf as (l' & ls' & Hl & Hls & ->).
    apply same_frame_body in Hl as (body' & -> & Hb' & _); [|done|by repeat constructor].
    apply lines_ok_crlf; [done|by apply IH].
Qed.

(** One step emits a line in the frame of the line it was given. *)
Lemma line_case_same_frame ind line r :
  line_case ind line r → ∃ line', out r = [line'] ∧ same_frame line line'.
Proof.
  destruct 1 as [| |p t s _ Hshape _|]; eexists; (split; [done|]); [by left..| |by left].
  destruct Hshape as (ws1 & ws2 & text & ws3 & Hp & -> & -> & _).
  right. exists p, t, (rewrite_target t), ws3. split_and!; [done|done| |].
  - rewrite Hp. by destruct ws1.
  - apply rewrite_target_Forall; by vm_compute; repeat constructor.
Qed.

(** A relation that every step keeps between the line and what it emits
    holds between the document and what is emitted for it. *)
Lemma foldl_process_line_Forall2 (R : str → str → Prop) :
  (∀ ind line r, line_case ind line r → ∃ line', out r = [line'] ∧ R line line') →
  ∀ ind lines,
    Forall2 R lines (out (foldl process_line (Scan ind false []) lines)).
Proof.
  intros HR ind lines.
  revert ind. induction lines as [|line lines IH]; intros ind; cbn [foldl].
  { constructor. }
  destruct (HR ind line _ (process_line_case ind line)) as (line' & Hout & Hframe).
  rewrite foldl_process_line_frame. cbn zeta. cbn [out]. rewrite Hout.
  constructor; [done|apply IH].
Qed.

(** The characters of the output are those of the input and those of the
    two texts the rule writes. *)
Lemma transform_Forall (P : N → Prop) text :
  Forall P notes_target → Forall P root_prefix → Forall P text →
  Forall P (join (out (transform text))).
Proof.
  intros Hn Hr Ht. unfold join, transform, process_lines.
  apply Forall_concat.
  eapply Forall2_Forall_r;
    [apply (foldl_process_line_Forall2 (λ l l', Forall P l → Forall P l'))|].
  - intros ind line r [| |p t s _ Hshape _|]; eexists; (split; [done|]); [done..| |done].
    destruct Hshape as (_ & _ & _ & _ & _ & _ & -> & _).
    intros [Hp [Htg Hs]%Forall_app]%Forall_app.
    repeat (apply Forall_app; split); [done| |done].
    by apply rewrite_target_Forall.
  - rewrite <-(join_splitlines text) in Ht. apply Forall_concat in Ht.
    eapply Forall_impl; [done|]. auto.
Qed.

(** ** Running the transform on its own output *)

Lemma transform_out_lines text :
  splitlines (join (out (transform text))) = out (transform text).
Proof.
  apply splitlines_join. eapply lines_ok_same_frame.
  - apply (foldl_process_line_Forall2 same_frame), line_case_same_frame.
  - apply lines_ok_splitlines.
Qed.

Lemma process_lines_again lines :
  process_lines (out (process_lines lines)) =
    Scan (in_details (process_lines lines)) false (out (process_lines lines)).
Proof. apply (foldl_process_line_again false). Qed.

(** ** Line by line through a document *)

Lemma process_lines_snoc lines line :
  process_lines (lines ++ [line]) = process_line (process_lines lines) line.
Proof. apply foldl_snoc. Qed.

Lemma out_length lines : length (out (process_lines lines)) = length lines.
Proof.
  induction lines as [|line lines IH] using rev_ind; [done|].
  rewrite process_lines_snoc.
  destruct (process_line_out (process_lines lines) line) as [line' ->].
  rewrite !length_app, IH. done.
Qed.

Lemma state_at_S lines i line :
  lines !! i = Some line →
  state_at lines (S i) = process_line (state_at lines i) line.
Proof.
  intros Hi. unfold state_at. by rewrite (take_S_r _ _ _ Hi), process_lines_snoc.
Qed.

Lemma state_at_all lines : state_at lines (length lines) = process_lines lines.
Proof. unfold state_at. by rewrite firstn_all. Qed.

Lemma process_lines_split lines i line :
  lines !! i = Some line →
  process_lines lines =
    foldl process_line (process_line (state_at lines i) line) (drop (S i) lines).
Proof.
  intros Hi. unfold state_at, process_lines.
  rewrite <-(take_drop_middle _ _ _ Hi) at 1. by rewrite foldl_app.
Qed.

(** Line [i] of the output is what the step on line [i] appended. *)
Lemma out_lookup lines i line :
  lines !! i = Some line →
  out (process_lines lines) !! i = last (out (process_line (state_at lines i) line)).
Proof.
  intros Hi. rewrite (process_lines_split _ _ _ Hi), foldl_process_line_frame.
  cbn zeta. cbn [out].
  destruct (process_line_out (state_at lines i) line) as [line' ->].
  assert (length (out (state_at lines i)) = i) as Hlen.
  { unfold state_at. rewrite out_length, length_take.
    apply lookup_lt_Some in Hi. lia. }
  rewrite last_snoc, <-(assoc_L (++)). cbn [app].
  by apply list_lookup_middle.
Qed.

(** Once set, [changed] stays set. *)
Lemma changed_stays st lines :
  changed st = true → changed (foldl process_line st lines) = true.
Proof. intros H. rewrite foldl_process_line_frame. cbn. by rewrite H. Qed.

Lemma changed_from lines i :
  changed (state_at lines i) = true → changed (process_lines lines) = true.
Proof.
  intros H. unfold state_at, process_lines in *.
  rewrite <-(take_drop i lines), foldl_app. by apply changed_stays.
Qed.

Lemma marker_None line :
  marker line = None ↔ strip line ≠ open_marker ∧ strip line ≠ close_marker.
Proof.
  unfold marker.
  destruct (bool_decide_reflect (strip line = open_marker)); [naive_solver|].
  destruct (bool_decide_reflect (strip line = close_marker)); naive_solver.
Qed.

Lemma match_not_marker line groups :
  match_groups link_re line = Some groups → marker line = None.
Proof.
  intros (p & t & s & _ & Hs)%link_re_spec.
  by apply marker_None, (link_shape_not_marker _ _ _ _ Hs).
Qed.

(** The flag follows the last marker that was seen. *)
Lemma in_details_step st line :
  in_details (process_line st line) = default (in_details st) (marker line).
Proof.
  unfold process_line, marker, emit. repeat case_match; done.
Qed.

Lemma in_details_last_marker lines :
  in_details (process_lines lines) = default false (last_marker lines).
Proof.
  unfold last_marker. induction lines as [|line lines IH] using rev_ind; [done|].
  rewrite process_lines_snoc, in_details_step, IH, omap_app, last_app. cbn.
  by destruct (marker line).
Qed.

(** [changed] is set exactly when some target was changed. *)
Lemma changed_iff_target_changed lines :
  changed (process_lines lines) = true ↔ target_changed lines.
Proof.
  split.
  - induction lines as [|line lines IH] using rev_ind; [done|].
    rewrite process_lines_snoc, process_line_frame. cbn.
    intros [Hc|Hc]%orb_true_iff.
    + destruct (IH Hc) as (i & l & p & t & s & Hi & Hin & Hm & Hne).
      exists i, l, p, t, s. pose proof (lookup_lt_Some _ _ _ Hi).
      split_and!; [by rewrite lookup_app_l| |done..].
      unfold inside, state_at in *. by rewrite take_app_le by lia.
    + pose proof (process_line_case (in_details (process_lines lines)) line) as Hcase.
      destruct Hcase as [| |p t s Hin Hs Hne|]; try done.
      exists (length lines), line, p, t, s. split_and!.
      * by rewrite list_lookup_middle.
      * unfold inside, state_at. by rewrite take_app_length.
      * by apply link_re_complete.
      * done.
  - intros (i & l & p & t & s & Hi & Hin & Hm & Hne).
    apply (changed_from _ (S i)). rewrite (state_at_S _ _ _ Hi).
    rewrite (process_line_link _ _ _ _ _ Hin Hm).
    by rewrite bool_decide_eq_true_2.
Qed.

(** [inside] in terms of the markers: the last marker line before line [i]
    is an opening one. *)
Lemma inside_last_marker lines i :
  inside lines i = true ↔ last_marker (take i lines) = Some true.
Proof.
  unfold inside, state_at. rewrite in_details_last_marker.
  destruct (last_marker _) as [[]|]; naive_solver.
Qed.

(** ** The loop over the files *)

Lemma process_paths_trace_frame names w tr :
  process_paths names w tr =
    let r := process_paths names w [] in
    Run (result r) (after r) (tr ++ trace r).
Proof.
  revert w tr. induction names as [|name names IH]; intros w tr; cbn [process_paths].
  { cbn. by rewrite app_nil_r. }
  case_bool_decide; [apply IH|].
  destruct (read_text w name) as [text|]; [|done].
  destruct (changed (transform text)).
  - rewrite IH, (IH _ ([] ++ _)). cbn. by rewrite <-(assoc_L (++)).
  - rewrite IH, (IH _ ([] ++ _)). cbn. by rewrite <-(assoc_L (++)).
Qed.

Lemma reached_subseteq w names name : name ∈ reached w names → name ∈ names.
Proof.
  induction names as [|n names IH]; cbn [reached]; [done|].
  repeat case_match; set_solver.
Qed.

(** [written], [file_events] and [reached] look at the files they are
    about and at no other. *)
Lemma read_text_agree w w' name :
  deepwiki w' !! name = deepwiki w !! name → read_text w' name = read_text w name.
Proof. unfold read_text. by intros ->. Qed.

Lemma written_agree w w' name :
  deepwiki w' !! name = deepwiki w !! name → written w' name = written w name.
Proof. unfold written. by intros ->%read_text_agree. Qed.

Lemma file_events_agree w w' name :
  deepwiki w' !! name = deepwiki w !! name → file_events w' name = file_events w name.
Proof. unfold file_events. by intros ->%written_agree. Qed.

Lemma reached_same w w' names :
  (∀ name, name ∈ names → is_Some (read_text w' name) ↔ is_Some (read_text w name)) →
  reached w' names = reached w names.
Proof.
  induction names as [|n names IH]; intros Hsame; cbn [reached]; [done|].
  rewrite IH by (intros; apply Hsame; set_solver).
  pose proof (Hsame n ltac:(set_solver)) as Hn.
  destruct (read_text w' n), (read_text w n); try done.
  - destruct Hn as [Hn _]. by destruct Hn.
  - destruct Hn as [_ Hn]. by destruct Hn.
Qed.

Lemma bind_file_events_agree w w' (names : list str) :
  (∀ name, name ∈ names → deepwiki w' !! name = deepwiki w !! name) →
  names ≫= file_events w' = names ≫= file_events w.
Proof.
  induction names as [|n names IH]; intros Hagree; [done|].
  rewrite !bind_cons, IH, (file_events_agree w w' n); [done| |];
    intros; apply Hagree; set_solver.
Qed.

Lemma written_readme w : written w readme_name = None.
Proof. unfold written. by rewrite bool_decide_eq_true_2. Qed.

(** What the loop does, file by file. *)
Lemma process_paths_spec names :
  ∀ w, NoDup names →
    let r := process_paths names w [] in
    trace r = reached w names ≫= file_events w
    ∧ deepwiki_is_dir (after r) = deepwiki_is_dir w
    ∧ ∀ name, deepwiki (after r) !! name = file_after w names name.
Proof.
  unfold file_after.
  induction names as [|n names IH]; intros w Hnd; cbn zeta; cbn [process_paths reached].
  { split_and!; [done..|]. intros name. by rewrite bool_decide_eq_false_2 by set_solver. }
  apply NoDup_cons in Hnd as [Hn Hnd].
  destruct (IH w Hnd) as (IHt & IHd & IHl). cbn zeta in *.
  case_bool_decide as Hreadme.
  { rewrite bind_cons. unfold file_events at 1.
    rewrite bool_decide_eq_true_2 by done. split_and!; [done..|].
    intros name. rewrite IHl. destruct (decide (name = n)) as [->|Hne].
    - rewrite Hreadme, written_readme. by repeat case_match.
    - f_equal. do 2 case_bool_decide; set_solver. }
  destruct (read_text w n) as [text|] eqn:Hread.
  2:{ cbn. unfold file_events, written. rewrite bool_decide_eq_false_2, Hread by done.
      split_and!; [done..|]. intros name. case_bool_decide as Hin; [|done].
      apply list_elem_of_singleton in Hin as ->. by rewrite bool_decide_eq_false_2, Hread. }
  assert (written w n = if changed (transform text)
    then Some (join (out (transform text))) else None) as Hw.
  { unfold written. by rewrite bool_decide_eq_false_2, Hread. }
  rewrite bind_cons. unfold file_events at 1.
  rewrite bool_decide_eq_false_2, Hw by done.
  destruct (changed (transform text)) eqn:Hch.
  - rewrite process_paths_trace_frame. cbn zeta. cbn [trace after].
    set (w' := write_text w n (join (out (transform text)))).
    assert (∀ name, name ≠ n → deepwiki w' !! name = deepwiki w !! name) as Hagree.
    { intros name Hne. unfold w', write_text. cbn. by rewrite lookup_insert_ne. }
    destruct (IH w' Hnd) as (IHt' & IHd' & IHl'). cbn zeta in *.
    rewrite IHt', IHd'.
    rewrite (reached_same w w') in *
      by (intros; rewrite (read_text_agree w w'); [done|apply Hagree; set_solver]).
    split_and!.
    + rewrite (bind_file_events_agree w w'); [done|].
      intros name Hin%reached_subseteq. apply Hagree. set_solver.
    + done.
    + intros name. rewrite IHl'. destruct (decide (name = n)) as [->|Hne].
      * rewrite bool_decide_eq_false_2 by (intros ?%reached_subseteq; done).
        rewrite bool_decide_eq_true_2 by set_solver. rewrite Hw.
        unfold w', write_text. cbn. by rewrite lookup_insert_eq.
      * rewrite (written_agree w w'), Hagree by auto.
        do 2 case_bool_decide; set_solver.
  - rewrite process_paths_trace_frame. cbn zeta. cbn [trace after].
    rewrite IHt, IHd. split_and!; [done..|].
    intros name. rewrite IHl. destruct (decide (name = n)) as [->|Hne].
    + rewrite bool_decide_eq_false_2 by (intros ?%reached_subseteq; done).
      rewrite bool_decide_eq_true_2 by set_solver. by rewrite Hw.
    + do 2 case_bool_decide; set_solver.
Qed.

(** ** The whole run *)

Lemma universal_newlines_no_CR s : Forall (λ c, c ≠ CR) (universal_newlines s).
Proof.
  induction s as [|c|c d s IH1 IH2] using str_ind2.
  - constructor.
  - simpl. destruct (N.eqb_spec c CR); by repeat constructor.
  - change (universal_newlines (c :: d :: s)) with
      (if c =? CR then
         LF :: (if d =? LF then universal_newlines s else universal_newlines (d :: s))
       else c :: universal_newlines (d :: s)).
    destruct (N.eqb_spec c CR); [|by constructor].
    constructor; [done|]. by destruct (d =? LF).
Qed.

Lemma universal_newlines_id s : Forall (λ c, c ≠ CR) s → universal_newlines s = s.
Proof.
  induction 1 as [|c s Hc _ IH]; [done|]. cbn [universal_newlines].
  apply N.eqb_neq in Hc as ->. by rewrite IH.
Qed.

Lemma sorted_glob_md_NoDup w : NoDup (sorted_glob_md w).
Proof.
  unfold sorted_glob_md. rewrite merge_sort_Permutation.
  apply NoDup_filter, NoDup_elements.
Qed.

Lemma main_missing w :
  deepwiki_is_dir w = false → main w = Run (SystemExit missing_dir_message) w [].
Proof. unfold main. by intros ->. Qed.

Lemma main_spec w :
  deepwiki_is_dir w = true →
  trace (main w) = reached w (sorted_glob_md w) ≫= file_events w
  ∧ deepwiki_is_dir (after (main w)) = true
  ∧ ∀ name, deepwiki (after (main w)) !! name = file_after w (sorted_glob_md w) name.
Proof.
  intros Hdir. unfold main. rewrite Hdir. cbn [negb].
  destruct (process_paths_spec _ w (sorted_glob_md_NoDup w)) as (Ht & Hd & Hl).
  cbn zeta in *. by rewrite Hd.
Qed.

Lemma file_events_elem w n ev :
  ev ∈ file_events w n ↔
  n ≠ readme_name
  ∧ (ev = ReadText n ∨ ∃ data, written w n = Some data ∧ ev = WriteText n data).
Proof.
  unfold file_events. case_bool_decide as Hn; [set_solver|].
  destruct (written w n) as [data|]; [|set_solver].
  rewrite !elem_of_cons, elem_of_nil. naive_solver.
Qed.

Lemma written_not_readme w name data : written w name = Some data → name ≠ readme_name.
Proof. intros Hw ->. by rewrite written_readme in Hw. Qed.

Lemma trace_read w name :
  ReadText name ∈ trace (main w) ↔
  deepwiki_is_dir w = true ∧ name ∈ reached w (sorted_glob_md w)
  ∧ name ≠ readme_name.
Proof.
  destruct (deepwiki_is_dir w) eqn:Hdir.
  - destruct (main_spec w Hdir) as (-> & _ & _). rewrite list_elem_of_bind.
    setoid_rewrite file_events_elem. naive_solver.
  - rewrite main_missing by done. cbn. set_solver.
Qed.

Lemma trace_write w name data :
  WriteText name data ∈ trace (main w) ↔
  deepwiki_is_dir w = true ∧ name ∈ reached w (sorted_glob_md w)
  ∧ written w name = Some data.
Proof.
  destruct (deepwiki_is_dir w) eqn:Hdir.
  - destruct (main_spec w Hdir) as (-> & _ & _). rewrite list_elem_of_bind.
    setoid_rewrite file_events_elem. split; [naive_solver|].
    intros (_ & Hin & Hw). exists name. split; [|done].
    split; [by eapply written_not_readme|eauto].
  - rewrite main_missing by done. cbn. set_solver.
Qed.

Lemma written_file w name stored :
  deepwiki w !! name = Some (File stored) → name ≠ readme_name →
  written w name =
    if changed (transform (universal_newlines stored))
    then Some (join (out (transform (universal_newlines stored)))) else None.
Proof.
  intros Hl Hne. unfold written, read_text.
  by rewrite bool_decide_eq_false_2, Hl.
Qed.

Lemma written_Some_file w name data :
  written w name = Some data →
  ∃ stored, deepwiki w !! name = Some (File stored)
    ∧ changed (transform (universal_newlines stored)) = true
    ∧ data = join (out (transform (universal_newlines stored))).
Proof.
  unfold written, read_text. case_bool_decide; [done|].
  destruct (deepwiki w !! name) as [[stored|]|]; [|done..].
  destruct (changed _) eqn:Hc; [|done]. intros [= <-]. eauto.
Qed.

Lemma after_main_lookup w name :
  deepwiki (after (main w)) !! name =
    match
      (if bool_decide (deepwiki_is_dir w = true
                       ∧ name ∈ reached w (sorted_glob_md w))
       then written w name else None)
    with
    | Some data => Some (File data)
    | None => deepwiki w !! name
    end.
Proof.
  destruct (deepwiki_is_dir w) eqn:Hdir.
  - destruct (main_spec w Hdir) as (_ & _ & ->). unfold file_after.
    do 2 case_bool_decide; naive_solver.
  - rewrite main_missing by done. by rewrite bool_decide_eq_false_2 by naive_solver.
Qed.


(** ** A second run *)

(** What the run stored in a file is text that the run leaves as it is. *)
Lemma written_settled w name data :
  written w name = Some data →
  universal_newlines data = data ∧ changed (transform data) = false.
Proof.
  intros (stored & _ & _ & ->)%written_Some_file. split.
  - apply universal_newlines_id, transform_Forall; [by vm_compute; repeat constructor..|].
    apply universal_newlines_no_CR.
  - unfold transform at 1. rewrite transform_out_lines.
    unfold transform. by rewrite process_lines_again.
Qed.

Lemma after_main_written w name :
  name ∈ reached w (sorted_glob_md w) → deepwiki_is_dir w = true →
  written (after (main w)) name = None.
Proof.
  intros Hin Hdir. destruct (decide (name = readme_name)) as [->|Hne].
  { apply written_readme. }
  unfold written, read_text. rewrite bool_decide_eq_false_2 by done.
  rewrite after_main_lookup, bool_decide_eq_true_2 by done.
  destruct (written w name) as [data|] eqn:Hw.
  - apply written_settled in Hw as [-> ->]. done.
  - unfold written, read_text in Hw. by rewrite bool_decide_eq_false_2 in Hw.
Qed.

Lemma after_main_read w name :
  is_Some (read_text (after (main w)) name) ↔ is_Some (read_text w name).
Proof.
  unfold read_text. rewrite after_main_lookup.
  destruct (if bool_decide _ then _ else _) as [data|] eqn:Hw; [|done].
  case_bool_decide; [|done]. apply written_Some_file in Hw as (stored & -> & _).
  split; eauto.
Qed.

Lemma after_main_dom w : dom (deepwiki (after (main w))) = dom (deepwiki w).
Proof.
  apply set_eq. intros name. rewrite !elem_of_dom, after_main_lookup.
  destruct (if bool_decide _ then _ else _) as [data|] eqn:Hw; [|done].
  case_bool_decide; [|done]. apply written_Some_file in Hw as (stored & -> & _).
  split; eauto.
Qed.

Lemma after_main_is_dir w : deepwiki_is_dir (after (main w)) = deepwiki_is_dir w.
Proof.
  destruct (deepwiki_is_dir w) eqn:Hdir.
  - by destruct (main_spec w Hdir) as (_ & -> & _).
  - by rewrite main_missing.
Qed.

Lemma world_eq w w' :
  deepwiki_is_dir w = deepwiki_is_dir w' →
  (∀ name, deepwiki w !! name = deepwiki w' !! name) → w = w'.
Proof.
  destruct w, w'. cbn. intros -> Hl. f_equal. by apply map_eq.
Qed.

(** The run, run again on the files it left, writes nothing and leaves
    every file as it is. *)
Theorem main_twice w :
  (∀ name data, WriteText name data ∉ trace (main (after (main w))))
  ∧ after (main (after (main w))) = after (main w).
Proof.
  set (w1 := after (main w)).
  assert (sorted_glob_md w1 = sorted_glob_md w) as Hnames.
  { unfold sorted_glob_md, w1. by rewrite after_main_dom. }
  assert (reached w1 (sorted_glob_md w1) = reached w (sorted_glob_md w)) as Hreached.
  { rewrite Hnames. apply reached_same. intros name _. apply after_main_read. }
  assert (∀ name, name ∈ reached w1 (sorted_glob_md w1) → deepwiki_is_dir w1 = true →
    written w1 name = None) as Hnone.
  { intros name Hin Hdir. rewrite Hreached in Hin. unfold w1 in Hdir.
    rewrite after_main_is_dir in Hdir. by apply after_main_written. }
  split.
  - intros name data (Hdir & Hin & Hw)%trace_write. rewrite Hnone in Hw; done.
  - apply world_eq; [apply after_main_is_dir|].
    intros name. rewrite after_main_lookup. case_bool_decide as Hcase; [|done].
    destruct Hcase as [Hdir Hin]. by rewrite Hnone.
Qed.

(** * The properties of the specification *)

(** C1.  The transform, applied to the text that a first application
    gives, emits the same lines again, hence the same text, and leaves
    [changed] unset, so that nothing is written. *)
Theorem transform_twice text :
  let first := transform text in
  let second := transform (join (out first)) in
  out second = out first
  ∧ join (out second) = join (out first)
  ∧ changed second = false
  ∧ in_details second = in_details first.
Proof.
  cbn zeta. set (first := transform text).
  assert (transform (join (out first)) = Scan (in_details first) false (out first))
    as ->; [|done].
  unfold transform at 1. unfold first.
  rewrite transform_out_lines. unfold transform. apply process_lines_again.
Qed.

(** C2.  A line of the link shape that is reached inside the region and
    whose target is exactly [doc/download-flow.md] is emitted with the
    target [../notes/download_flow.md], and the document counts as
    changed; the target starts with none of the passthrough prefixes, so
    it is the literal rule that keeps the fallback rule from applying. *)
Theorem legacy_target_rewritten lines i line prefix suffix :
  lines !! i = Some line →
  inside lines i = true →
  match_groups link_re line = Some [prefix; legacy_target; suffix] →
  out (process_lines lines) !! i = Some (prefix ++ notes_target ++ suffix)
  ∧ changed (process_lines lines) = true
  ∧ startswith_any legacy_target passthrough_prefixes = false.
Proof.
  intros Hi Hin Hm. split_and!; [| |done].
  - rewrite (out_lookup _ _ _ Hi), (process_line_link _ _ _ _ _ Hin Hm).
    rewrite bool_decide_eq_true_2 by (by vm_compute). cbn [out].
    by rewrite last_snoc.
  - apply changed_iff_target_changed. exists i, line, prefix, legacy_target, suffix.
    split_and!; [done..|by vm_compute].
Qed.

Lemma legacy_target_rewritten_witness :
  demo_lines !! 4%nat = Some (line_of "- [d](doc/download-flow.md)")
  ∧ inside demo_lines 4 = true
  ∧ out (process_lines demo_lines) !! 4%nat
      = Some (lit "- [d](" ++ lit "../notes/download_flow.md" ++ line_of ")").
Proof.
  split_and!; [reflexivity|reflexivity|].
  apply (legacy_target_rewritten demo_lines 4
           (line_of "- [d](doc/download-flow.md)") (lit "- [d](") (line_of ")"));
    reflexivity.
Defined.

(** C3.  A line of the link shape that is reached inside the region and
    whose target starts with one of [http://], [https://], [#], [../] and
    [./] (such a target is not [doc/download-flow.md]) is emitted as it
    is, and the step leaves [changed] as it was. *)
Theorem passthrough_unchanged lines i line prefix target suffix :
  lines !! i = Some line →
  inside lines i = true →
  match_groups link_re line = Some [prefix; target; suffix] →
  startswith_any target passthrough_prefixes = true →
  target ≠ legacy_target
  ∧ out (process_lines lines) !! i = Some line
  ∧ changed (state_at lines (S i)) = changed (state_at lines i).
Proof.
  intros Hi Hin Hm Hstart.
  assert (target ≠ legacy_target) as Hne by (intros ->; by vm_compute in Hstart).
  assert (rewrite_target target = target) as Heq.
  { unfold rewrite_target. by rewrite bool_decide_eq_false_2, Hstart. }
  split_and!; [done| |].
  - rewrite (out_lookup _ _ _ Hi), (process_line_link _ _ _ _ _ Hin Hm).
    rewrite bool_decide_eq_false_2 by naive_solver. cbn [out emit].
    by rewrite last_snoc.
  - rewrite (state_at_S _ _ _ Hi), (process_line_link _ _ _ _ _ Hin Hm).
    by rewrite bool_decide_eq_false_2 by naive_solver.
Qed.

Lemma passthrough_unchanged_witness :
  demo_lines !! 5%nat = Some (line_of "- [h](https://example.com/x)")
  ∧ inside demo_lines 5 = true
  ∧ out (process_lines demo_lines) !! 5%nat
      = Some (line_of "- [h](https://example.com/x)")
  ∧ changed (state_at demo_lines 6) = changed (state_at demo_lines 5).
Proof.
  split_and!; [reflexivity|reflexivity|..];
    apply (passthrough_unchanged demo_lines 5
             (line_of "- [h](https://example.com/x)")
             (lit "- [h](") (lit "https://example.com/x") (line_of ")"));
    reflexivity.
Defined.

Example passthrough_examples :
  out (process_lines demo_lines) !! 7%nat = demo_lines !! 7%nat
  ∧ out (process_lines demo_lines) !! 8%nat = demo_lines !! 8%nat
  ∧ out (process_lines demo_lines) !! 9%nat = demo_lines !! 9%nat.
Proof. by vm_compute. Qed.

(** C4.  A line of the link shape that is reached inside the region, whose
    target is not [doc/download-flow.md] and starts with none of the
    passthrough prefixes, is emitted with [../../] put before the target. *)
Theorem root_relative_prefixed lines i line prefix target suffix :
  lines !! i = Some line →
  inside lines i = true →
  match_groups link_re line = Some [prefix; target; suffix] →
  target ≠ legacy_target →
  startswith_any target passthrough_prefixes = false →
  out (process_lines lines) !! i
    = Some (prefix ++ (lit "../../" ++ target) ++ suffix).
Proof.
  intros Hi Hin Hm Hne Hstart.
  assert (rewrite_target target = lit "../../" ++ target) as Heq.
  { unfold rewrite_target. by rewrite bool_decide_eq_false_2, Hstart. }
  rewrite (out_lookup _ _ _ Hi), (process_line_link _ _ _ _ _ Hin Hm).
  rewrite bool_decide_eq_true_2, Heq; [cbn [out]; by rewrite last_snoc|].
  rewrite Heq. intros H%(f_equal length). rewrite length_app in H.
  vm_compute (length (lit _)) in H. lia.
Qed.

Lemma root_relative_prefixed_witness :
  demo_lines !! 3%nat = Some (line_of "- [r](README.md)")
  ∧ inside demo_lines 3 = true
  ∧ out (process_lines demo_lines) !! 3%nat
      = Some (lit "- [r](" ++ (lit "../../" ++ lit "README.md") ++ line_of ")").
Proof.
  split_and!; [reflexivity|reflexivity|].
  apply (root_relative_prefixed demo_lines 3 (line_of "- [r](README.md)")
           (lit "- [r](") (lit "README.md") (line_of ")"));
    [reflexivity|reflexivity|reflexivity|discriminate|reflexivity].
Defined.

Example root_relative_examples :
  out (process_lines demo_lines) !! 3%nat = Some (line_of "- [r](../../README.md)")
  ∧ out (process_lines demo_lines) !! 6%nat
      = Some (line_of "  - [s](../../ios/Classes/Foo.swift)  ").
Proof. by vm_compute. Qed.

(** C5.  For a document that the run reads, there is a write to its path
    exactly when the target of some line of it is changed; when none is,
    there is no write and the file holds after the run what it held
    before. *)
Theorem write_iff_target_changed w name stored :
  deepwiki w !! name = Some (File stored) →
  ReadText name ∈ trace (main w) →
  let lines := splitlines (universal_newlines stored) in
  ((∃ data, WriteText name data ∈ trace (main w)) ↔ target_changed lines)
  ∧ (¬ target_changed lines →
     (∀ data, WriteText name data ∉ trace (main w))
     ∧ deepwiki (after (main w)) !! name = Some (File stored)).
Proof.
  intros Hl (Hdir & Hin & Hne)%trace_read lines.
  pose proof (written_file w name stored Hl Hne) as Hw.
  pose proof (changed_iff_target_changed lines) as Hiff.
  unfold transform in Hw. fold lines in Hw.
  split.
  - rewrite <-Hiff. setoid_rewrite trace_write. rewrite Hw.
    destruct (changed _); naive_solver.
  - intros Hno. rewrite <-Hiff in Hno.
    apply not_true_is_false in Hno. rewrite Hno in Hw. split.
    + intros data (_ & _ & Hd)%trace_write. congruence.
    + rewrite after_main_lookup, Hw, Hl. by case_bool_decide.
Qed.

Lemma write_iff_target_changed_witness :
  deepwiki demo_world !! lit "b.md" = Some (File demo_page)
  ∧ ReadText (lit "b.md") ∈ trace (main demo_world)
  ∧ ((∃ data, WriteText (lit "b.md") data ∈ trace (main demo_world))
     ↔ target_changed (splitlines (universal_newlines demo_page))).
Proof.
  assert (deepwiki demo_world !! lit "b.md" = Some (File demo_page)) as Hfile
    by reflexivity.
  assert (ReadText (lit "b.md") ∈ trace (main demo_world)) as Hread
    by (vm_compute; repeat constructor).
  split_and!; [exact Hfile|exact Hread|].
  apply (write_iff_target_changed demo_world (lit "b.md") demo_page Hfile Hread).
Defined.

Example no_write_example :
  trace (main demo_world) =
    [ ReadText (lit "a.md"); ReadText (lit "b.md");
      WriteText (lit "b.md") (join (out (transform demo_page))) ]
  ∧ deepwiki (after (main demo_world)) !! lit "a.md" = Some (File quiet_page).
Proof. by vm_compute. Qed.

(** C6.  A line that is reached with [in_details] unset, or that is a
    marker line, is emitted as it is, whatever its shape; so a line that
    is emitted otherwise was reached with [in_details] set, is no marker
    line and leaves [in_details] set. *)
Theorem region_confinement lines i line :
  lines !! i = Some line →
  (inside lines i = false ∨ marker line ≠ None →
     out (process_lines lines) !! i = Some line)
  ∧ (out (process_lines lines) !! i ≠ Some line →
     inside lines i = true ∧ marker line = None ∧ inside lines (S i) = true).
Proof.
  intros Hi.
  assert (inside lines i = false ∨ marker line ≠ None →
    out (process_lines lines) !! i = Some line) as Hkeep.
  { rewrite (out_lookup _ _ _ Hi). unfold inside. intros Hcase.
    destruct (decide (strip line = open_marker)) as [Ho|Ho].
    { rewrite process_line_open by done. apply last_snoc. }
    destruct (decide (strip line = close_marker)) as [Hc|Hc].
    { rewrite process_line_close by done. apply last_snoc. }
    destruct Hcase as [Hout|Hm].
    - rewrite process_line_outside by done. apply last_snoc.
    - destruct Hm. by apply marker_None. }
  split; [done|]. intros Hne.
  destruct (inside lines i) eqn:Hin; [|naive_solver].
  destruct (marker line) eqn:Hm; [naive_solver|].
  split_and!; [done..|].
  unfold inside in *. by rewrite (state_at_S _ _ _ Hi), in_details_step, Hm.
Qed.

Lemma region_confinement_witness :
  demo_lines !! 1%nat = Some (line_of "- [out](outside.md)")
  ∧ inside demo_lines 1 = false
  ∧ is_Some (match_groups link_re (line_of "- [out](outside.md)"))
  ∧ out (process_lines demo_lines) !! 1%nat = Some (line_of "- [out](outside.md)").
Proof.
  split_and!; [reflexivity|reflexivity|by vm_compute; eexists|].
  apply (region_confinement demo_lines 1 (line_of "- [out](outside.md)") eq_refl).
  left. reflexivity.
Defined.

Example marker_lines_kept :
  out (process_lines demo_lines) !! 2%nat = Some (line_of "<details>")
  ∧ out (process_lines demo_lines) !! 10%nat = Some (line_of "</details>")
  ∧ out (process_lines demo_lines) !! 11%nat = Some (line_of "- [y](b.md)").
Proof. by vm_compute. Qed.

(** C7, as the code has it.  [in_details] is unset when the first line of
    a document is reached; after the last line it is unset exactly when
    the last marker line of the document, if there is one, is a closing
    one. *)
Theorem scan_state_start_end text :
  in_details (state_at (splitlines text) 0) = false
  ∧ (in_details (transform text) = false
     ↔ last_marker (splitlines text) ≠ Some true).
Proof.
  split; [done|]. unfold transform. rewrite in_details_last_marker.
  destruct (last_marker _) as [[]|]; naive_solver.
Qed.

(** C7 as it is stated fails on a document whose only marker line is an
    opening one: [in_details] is set after its last line. *)
Lemma scan_state_end_counterexample :
  ¬ (in_details (state_at (splitlines (join [line_of "<details>"; line_of "- [r](README.md)"])) 0) = false
     ∧ in_details (transform (join [line_of "<details>"; line_of "- [r](README.md)"])) = false).
Proof. by vm_compute; intros []. Qed.

(** C8.  When [docs/deepwiki] is not a directory the run ends with
    [SystemExit] and the message, the exit status is not zero, and nothing
    was read or written. *)
Theorem missing_directory_abort w :
  deepwiki_is_dir w = false →
  result (main w) = SystemExit missing_dir_message
  ∧ exit_status (result (main w)) ≠ 0%Z
  ∧ trace (main w) = []
  ∧ after (main w) = w.
Proof. intros Hdir. by rewrite main_missing. Qed.

Lemma missing_directory_abort_witness :
  deepwiki_is_dir (World false ∅) = false
  ∧ result (main (World false ∅)) = SystemExit missing_dir_message
  ∧ exit_status (result (main (World false ∅))) ≠ 0%Z
  ∧ trace (main (World false ∅)) = []
  ∧ after (main (World false ∅)) = World false ∅.
Proof.
  split; [reflexivity|]. apply (missing_directory_abort (World false ∅)). reflexivity.
Defined.

(** C9.  No run reads [README.md] or writes to it, and the file holds after
    the run what it held before, whatever it holds. *)
Theorem readme_skipped w :
  (ReadText readme_name ∉ trace (main w))
  ∧ (∀ data, WriteText readme_name data ∉ trace (main w))
  ∧ deepwiki (after (main w)) !! readme_name = deepwiki w !! readme_name.
Proof.
  split_and!.
  - rewrite trace_read. naive_solver.
  - intros data (_ & _ & Hw)%trace_write. by rewrite written_readme in Hw.
  - rewrite after_main_lookup, written_readme. by case_bool_decide.
Qed.

Example readme_example :
  changed (transform demo_page) = true
  ∧ deepwiki (after (main demo_world)) !! lit "README.md" = Some (File demo_page).
Proof. by vm_compute. Qed.



Example rewrite_keeps_frame_examples :
  out (process_lines demo_crlf_lines) !! 1%nat
    = Some (lit "- [r](../../README.md)" ++ [CR; LF])
  ∧ out (process_lines demo_lines) !! 6%nat
    = Some (lit "  - [s](../../ios/Classes/Foo.swift)  " ++ [LF]).
Proof. by vm_compute. Qed.

(** Text mode has the loop see a line feed where the file has a carriage
    return and a line feed. *)
Example crlf_file_read :
  read_text (World true {[ lit "c.md" := File (join demo_crlf_lines) ]}) (lit "c.md")
    = Some (join [line_of "<details>"; line_of "- [r](README.md)"]).
Proof. by vm_compute. Qed.

(** * Further properties of the script *)

(** ** The pattern and the rule *)

Lemma Forall_app_three {A} (P : A → Prop) l1 l2 l3 :
  Forall P (l1 ++ l2 ++ l3) → Forall P l1 ∧ Forall P l2 ∧ Forall P l3.
Proof. rewrite !Forall_app. tauto. Qed.

(** X1.  [link_re] matches a line exactly when the line is white space, a
    dash, white space, a bracketed text without closing bracket, a
    parenthesised target without closing parenthesis, and white space up
    to the end; the groups are the part up to the opening parenthesis, the
    target, and the rest. *)
Theorem link_re_matches_shape line groups :
  match_groups link_re line = Some groups ↔
  ∃ ws1 ws2 text target ws3,
    line = ws1 ++ chr "-" :: ws2 ++ chr "[" :: text ++ chr "]" :: chr "("
             :: target ++ chr ")" :: ws3
    ∧ groups = [ ws1 ++ chr "-" :: ws2 ++ chr "[" :: text ++ [chr "]"; chr "("];
                 target; chr ")" :: ws3 ]
    ∧ Forall (λ c, isspace c = true) (ws1 ++ ws2 ++ ws3)
    ∧ text ≠ [] ∧ Forall (λ c, c ≠ chr "]") text
    ∧ target ≠ [] ∧ Forall (λ c, c ≠ chr ")") target.
Proof.
  rewrite link_re_spec. unfold link_shape. split.
  - intros (p & t & s & -> & ws1 & ws2 & text & ws3 & -> & -> & -> & H1 & H2 & H3 & Hrest).
    exists ws1, ws2, text, t, ws3. split_and!; try tauto.
    + by list_norm.
    + by rewrite !Forall_app.
  - intros (ws1 & ws2 & text & t & ws3 & -> & -> & (H1 & H2 & H3)%Forall_app_three & Hrest).
    eexists _, _, _. split; [done|]. exists ws1, ws2, text, ws3.
    split_and!; try tauto; try done. by list_norm.
Qed.

(** X2.  The rule leaves a target alone exactly when the target starts
    with one of the passthrough prefixes; a target it changes starts with
    [../] afterwards; and the rule leaves its own results alone. *)
Theorem rewrite_target_settles target :
  (rewrite_target target = target
     ↔ startswith_any target passthrough_prefixes = true)
  ∧ (rewrite_target target ≠ target →
     startswith (rewrite_target target) (lit "../") = true)
  ∧ rewrite_target (rewrite_target target) = rewrite_target target.
Proof.
  destruct (rewrite_target_cases target) as [[-> Heq]|[(Hl & Hs & Heq)|(Hl & Hs & Heq)]].
  - rewrite Heq. by vm_compute.
  - rewrite !Heq, Hs. naive_solver.
  - rewrite Heq, Hs. split_and!.
    + split; [|done]. intros H%(f_equal length). rewrite length_app in H.
      change (length root_prefix) with 6%nat in H. lia.
    + by vm_compute.
    + unfold rewrite_target. rewrite bool_decide_eq_false_2 by (by vm_compute).
      by vm_compute.
Qed.

(** ** One document *)

(** X3.  A line that is no marker line and that [link_re] does not match
    is emitted as it is, inside the region too, and the step changes
    neither flag. *)
Theorem unmatched_line_kept lines i line :
  lines !! i = Some line →
  marker line = None →
  match_groups link_re line = None →
  out (process_lines lines) !! i = Some line
  ∧ changed (state_at lines (S i)) = changed (state_at lines i)
  ∧ inside lines (S i) = inside lines i.
Proof.
  intros Hi [Ho Hc]%marker_None Hm. unfold inside.
  rewrite (out_lookup _ _ _ Hi), (state_at_S _ _ _ Hi).
  rewrite process_line_no_link by done. cbn [emit out changed in_details].
  by rewrite last_snoc.
Qed.

Lemma unmatched_line_kept_witness :
  odd_lines !! 1%nat = Some (line_of "- [a](b.md) and [c](d.md)")
  ∧ inside odd_lines 1 = true
  ∧ out (process_lines odd_lines) !! 1%nat
      = Some (line_of "- [a](b.md) and [c](d.md)").
Proof.
  split_and!; [reflexivity|reflexivity|].
  apply (unmatched_line_kept odd_lines 1 (line_of "- [a](b.md) and [c](d.md)"));
    reflexivity.
Defined.

Example odd_lines_kept : process_lines odd_lines = Scan true false odd_lines.
Proof. by vm_compute. Qed.

(** When [changed] stays unset the lines are emitted as they are. *)
Lemma unchanged_out lines :
  changed (process_lines lines) = false → out (process_lines lines) = lines.
Proof.
  induction lines as [|line lines IH] using rev_ind; [done|].
  rewrite process_lines_snoc, process_line_frame. cbn zeta. cbn [changed out].
  intros [Hc Hstep]%orb_false_iff. rewrite IH by done. f_equal.
  by destruct (process_line_case (in_details (process_lines lines)) line).
Qed.

(** When [changed] is set some emitted line is not the line it stands for. *)
Lemma changed_out lines :
  changed (process_lines lines) = true → out (process_lines lines) ≠ lines.
Proof.
  intros (i & line & p & t & s & Hi & Hin & Hm & Hne)%changed_iff_target_changed Heq.
  pose proof (out_lookup _ _ _ Hi) as Hout.
  rewrite (process_line_link _ _ _ _ _ Hin Hm), bool_decide_eq_true_2 in Hout by done.
  cbn [out] in Hout. rewrite last_snoc, Heq, Hi in Hout.
  apply link_re_spec in Hm as (p' & t' & s' & [= <- <- <-] & Hshape).
  destruct Hshape as (_ & _ & _ & _ & _ & _ & Hline & _).
  rewrite Hline in Hout. by simplify_list_eq.
Qed.

(** X4.  The transform emits one line for each line of the text, and the
    text it gives splits into exactly the lines that were emitted: no
    rewrite joins two lines or breaks one. *)
Theorem line_structure_kept text :
  length (out (transform text)) = length (splitlines text)
  ∧ splitlines (join (out (transform text))) = out (transform text).
Proof.
  split; [apply out_length|]. apply splitlines_join.
  eapply lines_ok_same_frame; [|apply lines_ok_splitlines].
  apply (foldl_process_line_Forall2 same_frame), line_case_same_frame.
Qed.

(** When [changed] is set the text that would be written is not the text
    that was read. *)
Lemma changed_join_differs text :
  changed (transform text) = true → join (out (transform text)) ≠ text.
Proof.
  intros Hc Heq. apply (changed_out (splitlines text)); [done|].
  fold (transform text). by rewrite <-transform_out_lines, Heq.
Qed.

(** X5.  [changed] is set exactly when the text that would be written is
    not the text that was read. *)
Theorem changed_iff_text_differs text :
  changed (transform text) = true ↔ join (out (transform text)) ≠ text.
Proof.
  split; [apply changed_join_differs|].
  intros Hne. apply not_false_is_true. intros Hc. apply Hne.
  unfold transform. by rewrite unchanged_out, join_splitlines.
Qed.

(** X6.  A line that is emitted changed came from a line that [link_re]
    matches, and [link_re] matches it again, with the same prefix and
    suffix and with the new target. *)
Theorem rewritten_line_matches lines i line line' :
  lines !! i = Some line →
  out (process_lines lines) !! i = Some line' →
  line' ≠ line →
  ∃ prefix target suffix,
    match_groups link_re line = Some [prefix; target; suffix]
    ∧ match_groups link_re line' = Some [prefix; rewrite_target target; suffix]
    ∧ rewrite_target target ≠ target.
Proof.
  intros Hi Hout Hne. rewrite (out_lookup _ _ _ Hi), process_line_frame in Hout.
  cbn zeta in Hout. cbn [out] in Hout. rewrite last_app in Hout.
  destruct (process_line_case (in_details (state_at lines i)) line)
    as [| |p t s _ Hshape Hnt|]; cbn [out last] in Hout; simplify_eq.
  exists p, t, s. split_and!; [by apply link_re_complete| |done].
  apply link_re_complete. by eapply link_shape_rewrite.
Qed.

Lemma rewritten_line_matches_witness :
  demo_lines !! 3%nat = Some (line_of "- [r](README.md)")
  ∧ out (process_lines demo_lines) !! 3%nat = Some (line_of "- [r](../../README.md)")
  ∧ ∃ prefix target suffix,
      match_groups link_re (line_of "- [r](README.md)")
        = Some [prefix; target; suffix]
      ∧ match_groups link_re (line_of "- [r](../../README.md)")
        = Some [prefix; rewrite_target target; suffix]
      ∧ rewrite_target target ≠ target.
Proof.
  split_and!; [reflexivity|reflexivity|].
  apply (rewritten_line_matches demo_lines 3
           (line_of "- [r](README.md)") (line_of "- [r](../../README.md)"));
    [reflexivity|reflexivity|discriminate].
Defined.

(** X7.  A document without opening marker line is emitted as it is, with
    both flags unset, whatever links and closing marker lines it has. *)
Theorem unopened_document_kept lines :
  Forall (λ line, strip line ≠ open_marker) lines →
  process_lines lines = Scan false false lines.
Proof.
  induction lines as [|line lines IH] using rev_ind; [done|].
  intros [Hlines [Hline _]%Forall_cons]%Forall_app.
  rewrite process_lines_snoc, IH by done.
  destruct (decide (strip line = close_marker)).
  - by rewrite process_line_close.
  - by rewrite process_line_outside.
Qed.

Lemma unopened_document_kept_witness :
  Forall (λ line, strip line ≠ open_marker) unopened_lines
  ∧ process_lines unopened_lines = Scan false false unopened_lines.
Proof.
  assert (Forall (λ line, strip line ≠ open_marker) unopened_lines) as Hlines
    by (repeat constructor; discriminate).
  split; [exact Hlines|]. apply (unopened_document_kept unopened_lines Hlines).
Defined.

(** ** The run *)

Lemma sorted_glob_md_elem w name :
  name ∈ sorted_glob_md w ↔
  endswith name (lit ".md") = true ∧ is_Some (deepwiki w !! name).
Proof.
  unfold sorted_glob_md.
  by rewrite merge_sort_Permutation, list_elem_of_filter, elem_of_elements, elem_of_dom.
Qed.

Lemma name_le_total a b : name_le a b ∨ name_le b a.
Proof.
  unfold name_le. revert b. induction a as [|x a IH]; intros [|y b]; cbn; auto.
  destruct (N.ltb_spec x y), (N.ltb_spec y x); cbn; auto; lia.
Qed.

Lemma name_le_trans a b c : name_le a b → name_le b c → name_le a c.
Proof.
  unfold name_le. revert b c.
  induction a as [|x a IH]; intros [|y b] [|z c]; cbn; try done.
  destruct (N.ltb_spec x y), (N.ltb_spec y x), (N.ltb_spec y z), (N.ltb_spec z y),
    (N.ltb_spec x z), (N.ltb_spec z x); cbn; try done; try lia.
  apply IH.
Qed.

Lemma name_le_antisym a b : name_le a b → name_le b a → a = b.
Proof.
  unfold name_le. revert b. induction a as [|x a IH]; intros [|y b]; cbn; try done.
  destruct (N.ltb_spec x y), (N.ltb_spec y x); cbn; try done; try lia.
  intros Hab Hba. f_equal; [lia|by apply IH].
Qed.

Lemma sorted_glob_md_sorted w : StronglySorted name_le (sorted_glob_md w).
Proof.
  apply (@StronglySorted_merge_sort _ name_le _).
  - intros a b c. apply name_le_trans.
  - intros a b. apply name_le_total.
Qed.

Lemma reached_prefix w names : ∃ rest, names = reached w names ++ rest.
Proof.
  induction names as [|n names [rest IH]]; cbn [reached]; [by exists []|].
  case_bool_decide; [exists rest; cbn; congruence|].
  destruct (read_text w n); [exists rest; cbn; congruence|by exists names].
Qed.

Lemma blocked_same w w' names :
  (∀ name, name ∈ names → is_Some (read_text w' name) ↔ is_Some (read_text w name)) →
  blocked w' names = blocked w names.
Proof.
  induction names as [|n names IH]; intros Hsame; cbn [blocked]; [done|].
  rewrite IH by (intros; apply Hsame; set_solver).
  pose proof (Hsame n ltac:(set_solver)) as Hn.
  destruct (read_text w' n), (read_text w n); try done.
  - destruct Hn as [Hn _]. by destruct Hn.
  - destruct Hn as [_ Hn]. by destruct Hn.
Qed.

(** How the loop ends. *)
Lemma process_paths_result names :
  ∀ w tr, NoDup names →
    result (process_paths names w tr) =
      match blocked w names with
      | Some name => Raised name
      | None => Done
      end.
Proof.
  induction names as [|n names IH]; intros w tr Hnd; cbn [process_paths blocked]; [done|].
  apply NoDup_cons in Hnd as [Hn Hnd].
  case_bool_decide; [by apply IH|].
  destruct (read_text w n) as [text|] eqn:Hread; [|done].
  destruct (changed (transform text)); [|by apply IH].
  rewrite IH by done. erewrite blocked_same; [done|].
  intros name Hin. rewrite (read_text_agree w (write_text w n _)); [done|].
  cbn. apply lookup_insert_ne. set_solver.
Qed.

Lemma blocked_None w names :
  blocked w names = None →
  reached w names = names
  ∧ ∀ name, name ∈ names → name ≠ readme_name → is_Some (read_text w name).
Proof.
  induction names as [|n names IH]; cbn [blocked reached]; [set_solver|].
  case_bool_decide as Hn.
  - intros [-> Hall]%IH. split; [done|].
    intros name [->|Hin]%elem_of_cons; [naive_solver|auto].
  - destruct (read_text w n) eqn:Hread; [|done].
    intros [-> Hall]%IH. split; [done|].
    intros name [->|Hin]%elem_of_cons; [by rewrite Hread|auto].
Qed.

Lemma blocked_Some w names name :
  blocked w names = Some name →
  name ≠ readme_name ∧ read_text w name = None
  ∧ ∃ before, reached w names = before ++ [name].
Proof.
  induction names as [|n names IH]; cbn [blocked reached]; [done|].
  case_bool_decide as Hn.
  - intros (? & ? & before & ->)%IH. split_and!; [done..|]. by exists (n :: before).
  - destruct (read_text w n) eqn:Hread.
    + intros (? & ? & before & ->)%IH. split_and!; [done..|]. by exists (n :: before).
    + intros [= <-]. split_and!; [done..|]. by exists [].
Qed.

Lemma main_result w :
  result (main w) =
    if deepwiki_is_dir w then
      match blocked w (sorted_glob_md w) with
      | Some name => Raised name
      | None => Done
      end
    else SystemExit missing_dir_message.
Proof.
  unfold main. destruct (deepwiki_is_dir w); [|done].
  apply process_paths_result, sorted_glob_md_NoDup.
Qed.

Lemma reads_bind_file_events w (names : list str) :
  reads (names ≫= file_events w) = filter (λ name, name ≠ readme_name) names.
Proof.
  unfold reads. induction names as [|n names IH]; [done|].
  rewrite bind_cons, omap_app, IH. unfold file_events. case_bool_decide.
  - by rewrite filter_cons_False by naive_solver.
  - rewrite filter_cons_True by done. by destruct (written w n).
Qed.

Lemma StronglySorted_filter {A} (R : relation A) (P : A → Prop)
    `{∀ x, Decision (P x)} l :
  StronglySorted R l → StronglySorted R (filter P l).
Proof.
  induction 1 as [|x l Hl IH Hx]; [constructor|].
  rewrite filter_cons. case_decide; [|done].
  constructor; [done|]. apply Forall_forall. intros y [_ Hy]%list_elem_of_filter.
  by eapply Forall_forall in Hx.
Qed.

(** X8.  A name that does not end in [.md] is not read and not written,
    and holds after the run what it held before. *)
Theorem other_names_untouched w name :
  endswith name (lit ".md") = false →
  (ReadText name ∉ trace (main w))
  ∧ (∀ data, WriteText name data ∉ trace (main w))
  ∧ deepwiki (after (main w)) !! name = deepwiki w !! name.
Proof.
  intros Hend.
  assert (name ∉ reached w (sorted_glob_md w)) as Hout.
  { intros [Hmd _]%reached_subseteq%sorted_glob_md_elem. congruence. }
  split_and!.
  - rewrite trace_read. naive_solver.
  - intros data. rewrite trace_write. naive_solver.
  - rewrite after_main_lookup. by rewrite bool_decide_eq_false_2 by naive_solver.
Qed.

Lemma other_names_untouched_witness :
  endswith (lit "notes.txt") (lit ".md") = false
  ∧ deepwiki (after (main demo_world)) !! lit "notes.txt" = Some (File demo_page).
Proof.
  split; [reflexivity|].
  destruct (other_names_untouched demo_world (lit "notes.txt") eq_refl) as (_ & _ & ->).
  reflexivity.
Defined.

(** X9.  The run adds no name to the directory and takes none away, and an
    entry is a file after the run exactly when it was one before. *)
Theorem entries_kept w :
  dom (deepwiki (after (main w))) = dom (deepwiki w)
  ∧ deepwiki_is_dir (after (main w)) = deepwiki_is_dir w
  ∧ ∀ name,
      (∃ stored, deepwiki (after (main w)) !! name = Some (File stored))
      ↔ (∃ stored, deepwiki w !! name = Some (File stored)).
Proof.
  split_and!; [apply after_main_dom|apply after_main_is_dir|].
  intros name. rewrite after_main_lookup.
  destruct (if bool_decide _ then _ else _) as [data|] eqn:Hw; [|done].
  case_bool_decide; [|done]. apply written_Some_file in Hw as (stored & -> & _).
  split; eauto.
Qed.



(** X11.  The names are read in ascending order, and none is read twice. *)
Theorem reads_in_order w :
  StronglySorted name_le (reads (trace (main w)))
  ∧ NoDup (reads (trace (main w))).
Proof.
  destruct (deepwiki_is_dir w) eqn:Hdir.
  2:{ rewrite main_missing by done. split; constructor. }
  destruct (main_spec w Hdir) as (-> & _ & _). rewrite reads_bind_file_events.
  destruct (reached_prefix w (sorted_glob_md w)) as [rest Hrest].
  pose proof (sorted_glob_md_sorted w) as Hsorted.
  pose proof (sorted_glob_md_NoDup w) as Hnd.
  rewrite Hrest in Hsorted, Hnd. split.
  - apply StronglySorted_filter. by apply StronglySorted_app_1_l in Hsorted.
  - apply NoDup_filter. by apply NoDup_app in Hnd as [? _].
Qed.

(** X12.  When the run ends on a name it could not read, the name ends in
    [.md], is not [README.md] and stands for something that cannot be
    read; the read of it is the last thing the run did; the exit status is
    one; and the names after it in the order are not read, not written
    and hold what they held. *)
Theorem abort_on_unreadable w name :
  result (main w) = Raised name →
  endswith name (lit ".md") = true
  ∧ name ≠ readme_name
  ∧ deepwiki w !! name = Some Unreadable
  ∧ last (trace (main w)) = Some (ReadText name)
  ∧ exit_status (result (main w)) = 1%Z
  ∧ ∀ later, name_le name later → later ≠ name →
      (ReadText later ∉ trace (main w))
      ∧ (∀ data, WriteText later data ∉ trace (main w))
      ∧ deepwiki (after (main w)) !! later = deepwiki w !! later.
Proof.
  intros Hres. pose proof Hres as Hblocked. rewrite main_result in Hblocked.
  destruct (deepwiki_is_dir w) eqn:Hdir; [|done].
  destruct (blocked w (sorted_glob_md w)) as [n|] eqn:Hb; [|done].
  injection Hblocked as ->.
  apply blocked_Some in Hb as (Hne & Hread & before & Hreached).
  assert (name ∈ sorted_glob_md w) as [Hmd [entry Hentry]]%sorted_glob_md_elem.
  { apply (reached_subseteq w). rewrite Hreached. set_solver. }
  assert (written w name = None) as Hw.
  { unfold written. by rewrite bool_decide_eq_false_2, Hread. }
  split_and!; [done|done| | |by rewrite Hres|].
  - unfold read_text in Hread. rewrite Hentry in Hread |- *. by destruct entry.
  - destruct (main_spec w Hdir) as (-> & _ & _).
    rewrite Hreached, bind_app, bind_singleton. unfold file_events.
    by rewrite bool_decide_eq_false_2, Hw, last_snoc.
  - intros later Hle Hlater.
    assert (later ∉ reached w (sorted_glob_md w)) as Hout.
    { rewrite Hreached. intros [Hin| ->%list_elem_of_singleton]%elem_of_app; [|done].
      destruct (reached_prefix w (sorted_glob_md w)) as [rest Hrest].
      pose proof (sorted_glob_md_sorted w) as Hsorted.
      rewrite Hrest, Hreached in Hsorted. apply StronglySorted_app_1_l in Hsorted.
      apply Hlater, name_le_antisym; [|done].
      eapply StronglySorted_app_1_elem_of; [done..|set_solver]. }
    split_and!.
    + rewrite trace_read. naive_solver.
    + intros data. rewrite trace_write. naive_solver.
    + rewrite after_main_lookup. by rewrite bool_decide_eq_false_2 by naive_solver.
Qed.

Lemma abort_on_unreadable_witness :
  result (main broken_world) = Raised (lit "b.md")
  ∧ last (trace (main broken_world)) = Some (ReadText (lit "b.md"))
  ∧ deepwiki (after (main broken_world)) !! lit "c.md" = Some (File demo_page).
Proof.
  assert (result (main broken_world) = Raised (lit "b.md")) as Hres by reflexivity.
  destruct (abort_on_unreadable broken_world (lit "b.md") Hres)
    as (_ & _ & _ & Hlast & _ & Hlater).
  split_and!; [exact Hres|exact Hlast|].
  destruct (Hlater (lit "c.md")) as (_ & _ & ->); [reflexivity|discriminate|reflexivity].
Defined.

Example broken_world_trace :
  trace (main broken_world) =
    [ ReadText (lit "a.md"); WriteText (lit "a.md") (join (out (transform demo_page)));
      ReadText (lit "b.md") ].
Proof. by vm_compute. Qed.


(** X14.  When the run comes to its end, every file whose name ends in
    [.md], other than [README.md], was read, and it holds the transform of
    the text it held if that sets [changed], and the text it held
    otherwise. *)
Theorem done_contents w name stored :
  result (main w) = Done →
  deepwiki w !! name = Some (File stored) →
  endswith name (lit ".md") = true →
  name ≠ readme_name →
  let st := transform (universal_newlines stored) in
  ReadText name ∈ trace (main w)
  ∧ deepwiki (after (main w)) !! name
      = Some (File (if changed st then join (out st) else stored)).
Proof.
  intros Hres Hentry Hmd Hne st. rewrite main_result in Hres.
  destruct (deepwiki_is_dir w) eqn:Hdir; [|done].
  destruct (blocked w (sorted_glob_md w)) eqn:Hb; [done|].
  apply blocked_None in Hb as [Hreached _].
  assert (name ∈ reached w (sorted_glob_md w)) as Hin.
  { rewrite Hreached. apply sorted_glob_md_elem. by rewrite Hentry. }
  split; [by apply trace_read|].
  rewrite after_main_lookup, bool_decide_eq_true_2 by done.
  rewrite (written_file _ _ _ Hentry Hne). fold st.
  by destruct (changed st).
Qed.

Lemma done_contents_witness :
  result (main demo_world) = Done
  ∧ deepwiki (after (main demo_world)) !! lit "b.md"
      = Some (File (join (out (transform demo_page))))
  ∧ deepwiki (after (main demo_world)) !! lit "a.md" = Some (File quiet_page).
Proof.
  assert (result (main demo_world) = Done) as Hres by reflexivity.
  split_and!; [exact Hres|..].
  - destruct (done_contents demo_world (lit "b.md") demo_page Hres) as [_ ->];
      [reflexivity|reflexivity|discriminate|reflexivity].
  - destruct (done_contents demo_world (lit "a.md") quiet_page Hres) as [_ ->];
      [reflexivity|reflexivity|discriminate|reflexivity].
Defined.
